(** * MozaikLite: stimulus frames, parameter validation, analysis data structures

    A shallow embedding of
    - [framework/interfaces.py]: [VisualStimulus],
      [MozaikLiteParametrizeObject], [MozaikComponent] and
      [VisualSystemConnector];
    - [mozaik/analysis/analysis_data_structures.py]: the
      [AnalysisDataStructure] hierarchy.

    Python objects are records, exceptions are values of [exn], a call that
    may raise returns a [result].  Python floats are idealised as rationals
    ([Q]): only their order is used by the code, and NaN is outside the
    model. *)

From stdpp Require Import base option list gmap strings.
From Stdlib Require Import QArith Permutation.

Set Warnings "-register-all".
Local Open Scope string_scope.
Local Open Scope list_scope.

(** ** Python prelude: exceptions and results *)

Inductive exn : Type :=
| KeyError
| AssertionError
| Exception
| ValueError
| TypeError
| IndexError
| AttributeError.

Inductive result (A : Type) : Type :=
| Return (a : A)
| Raise (e : exn).
Arguments Return {A} a.
Arguments Raise {A} e.

#[global] Instance exn_eq_dec : EqDecision exn.
Proof. solve_decision. Defined.

#[global] Instance result_ret : MRet result := λ A a, Return a.
#[global] Instance result_bind : MBind result := λ A B f m,
  match m with
  | Return a => f a
  | Raise e => Raise e
  end.

(** ** Python dictionaries whose iteration order is observable

    A [dict] lists the items in the order [items()] and [keys()] enumerate
    them; a Python dict holds a key once. *)
Module PyDict.

Definition dict (V : Type) : Type := list (string * V).

Definition keys {V} (d : dict V) : list string := d.*1.

(** [d[k]]; [None] stands for the [KeyError] of a missing key. *)
Fixpoint get {V} (d : dict V) (k : string) : option V :=
  match d with
  | [] => None
  | (k', v) :: d' => if decide (k = k') then Some v else get d' k
  end.

(** [d[k] = v]: an existing key keeps its place, a new key is added. *)
Fixpoint set {V} (d : dict V) (k : string) (v : V) : dict V :=
  match d with
  | [] => [(k, v)]
  | (k', v') :: d' =>
      if decide (k = k') then (k', v) :: d' else (k', v') :: set d' k v
  end.

(** [d.update(other)]: [d[k] = v] for every item of [other], in order. *)
Definition update {V} (d other : dict V) : dict V :=
  foldl (λ acc kv, set acc kv.1 kv.2) d other.

(** [set(a.keys()) == set(b.keys())] *)
Definition same_keys {V W} (a : dict V) (b : dict W) : bool :=
  bool_decide (list_to_set (keys a) =@{gset string} list_to_set (keys b)).

Lemma get_Some_elem {V} (d : dict V) k v : get d k = Some v → (k, v) ∈ d.
Proof.
  induction d as [|[k' v'] d IH]; simpl; [done|].
  case_decide as Hk.
  - intros [= ->]. subst. left.
  - intros H. right. auto.
Qed.

Lemma get_is_Some {V} (d : dict V) k : is_Some (get d k) ↔ k ∈ keys d.
Proof.
  unfold keys. induction d as [|[k' v'] d IH]; simpl.
  - split; [intros [? [=]] | intros H; inversion H].
  - case_decide as Hk.
    + subst. split; [intros _; left | eauto].
    + rewrite IH. split; [intros H; by right|].
      intros H. inversion H; subst; [done | assumption].
Qed.

Lemma get_None {V} (d : dict V) k : get d k = None ↔ k ∉ keys d.
Proof. rewrite <- get_is_Some, eq_None_not_Some. done. Qed.

Lemma same_keys_spec {V W} (a : dict V) (b : dict W) :
  same_keys a b = true ↔ ∀ k, k ∈ keys a ↔ k ∈ keys b.
Proof.
  unfold same_keys. rewrite bool_decide_eq_true. split.
  - intros H k. rewrite <- !(elem_of_list_to_set (C := gset string)).
    by rewrite H.
  - intros H. apply set_eq. intros k. rewrite !elem_of_list_to_set. apply H.
Qed.

Lemma get_set {V} (d : dict V) k v k' :
  get (set d k v) k' = if decide (k' = k) then Some v else get d k'.
Proof.
  induction d as [|[k0 v0] d IH]; simpl.
  - by repeat case_decide.
  - destruct (decide (k = k0)) as [->|Hne]; simpl.
    + by repeat case_decide.
    + rewrite IH. repeat case_decide; congruence.
Qed.

Lemma get_update {V} (d other : dict V) k :
  get (update d other) k =
    match get (reverse other) k with
    | Some v => Some v
    | None => get d k
    end.
Proof.
  unfold update. revert d. induction other as [|[k0 v0] other IH]; intros d.
  - done.
  - simpl. rewrite IH, reverse_cons. clear IH.
    induction (reverse other) as [|[k1 v1] l IHl]; simpl.
    + rewrite get_set. by case_decide.
    + case_decide; [done | apply IHl].
Qed.

End PyDict.

(** ** [MozaikLiteParametrizeObject]: declared against supplied parameters
    ([framework/interfaces.py]) *)
Module Parametrized.
Import PyDict.

(** The Python types a [required_parameters] tree names at its leaves. *)
Inductive pytype : Type :=
| T_object | T_int | T_bool | T_float | T_str | T_NoneType | T_dict
| T_ParameterSet.

#[global] Instance pytype_eq_dec : EqDecision pytype.
Proof. solve_decision. Defined.

(** Supplied values: a nested [ParameterSet] or a plain Python value. *)
Inductive value : Type :=
| V_int (z : Z)
| V_bool (b : bool)
| V_float (q : Q)
| V_str (s : string)
| V_None
| V_pset (items : dict value).

(** Declared parameters: a type, or a nested [ParameterSet] of
    declarations. *)
Inductive decl : Type :=
| D_type (t : pytype)
| D_pset (items : dict decl).

Definition type_of (x : value) : pytype :=
  match x with
  | V_int _ => T_int
  | V_bool _ => T_bool
  | V_float _ => T_float
  | V_str _ => T_str
  | V_None => T_NoneType
  | V_pset _ => T_ParameterSet
  end.

(** [issubclass]: [bool] derives from [int], [ParameterSet] from [dict],
    everything from [object]. *)
Definition issubclass (c t : pytype) : bool :=
  match t, c with
  | T_object, _ => true
  | T_int, T_bool => true
  | T_dict, T_ParameterSet => true
  | _, _ => bool_decide (c = t)
  end.

Definition isinstance (x : value) (t : pytype) : bool :=
  issubclass (type_of x) t.

(** [isinstance(x, ParameterSet)] *)
Definition is_ParameterSet (x : value) : bool :=
  match x with V_pset _ => true | _ => false end.

(** The loop [for k, v in tP.items()] of [walk], over the remaining items;
    [check v x] is the loop body for a declaration [v] and [x = P[k]]. *)
Definition walk_items (check : decl → value → result unit)
    (P : dict value) : dict decl → result unit :=
  fix loop (items : dict decl) : result unit :=
    match items with
    | [] => Return ()
    | (k, v) :: rest =>
        match get P k with
        | None => Raise KeyError
        | Some x => check v x ≫= λ _, loop rest
        end
    end.

(** [walk(tP, P)] with the loop body left open. *)
Definition walk_with (check : decl → value → result unit)
    (tP : dict decl) (P : dict value) : result unit :=
  if same_keys tP P then walk_items check P tP else Raise KeyError.

Fixpoint walk_entry (v : decl) (x : value) {struct v} : result unit :=
  match v with
  | D_pset sub =>
      match x with
      | V_pset subP => walk_with walk_entry sub subP
      | _ => Raise AssertionError
      end
  | D_type t => if isinstance x t then Return () else Raise AssertionError
  end.

Definition walk : dict decl → dict value → result unit :=
  walk_with walk_entry.

(** A class as [check_parameters] sees it: the [required_parameters] of its
    own body, if it has one. *)
Record pyclass : Type := {
  cls_name : string;
  cls_required_parameters : option (dict decl)
}.

(** [getattr(cls, 'required_parameters')] for a class whose [__mro__] is
    [mro] (single inheritance: the class followed by its ancestors); [None]
    when [hasattr] is false. *)
Fixpoint required_parameters (mro : list pyclass) : option (dict decl) :=
  match mro with
  | [] => None
  | cls :: bases =>
      match cls_required_parameters cls with
      | Some rp => Some rp
      | None => required_parameters bases
      end
  end.

(** The loop [for cls in self.__class__.__mro__] filling
    [new_param_dict]. *)
Fixpoint collect (mro : list pyclass) (new_param_dict : dict decl)
    : dict decl :=
  match mro with
  | [] => new_param_dict
  | cls :: bases =>
      match required_parameters (cls :: bases) with
      | Some rp => collect bases (update new_param_dict rp)
      | None => collect bases new_param_dict
      end
  end.

(** [ParameterSet(new_param_dict)], the tree [walk] validates against. *)
Definition declared_tree (mro : list pyclass) : dict decl := collect mro [].

(** [check_parameters(self, parameters)], for [self.__class__.__mro__ = mro]. *)
Definition check_parameters (mro : list pyclass) (parameters : dict value)
    : result unit :=
  match walk (declared_tree mro) parameters with
  | Raise AssertionError => Raise Exception
  | r => r
  end.

(** *** What the specification calls a match *)

(** At every level the key sets agree, a declared nested set meets a
    supplied set that matches it, a declared type meets an instance. *)
Inductive matches : dict decl → dict value → Prop :=
| matches_level (tP : dict decl) (P : dict value) :
    (∀ k, k ∈ keys tP ↔ k ∈ keys P) →
    (∀ k sub, (k, D_pset sub) ∈ tP →
       ∃ subP, get P k = Some (V_pset subP) ∧ matches sub subP) →
    (∀ k t, (k, D_type t) ∈ tP →
       ∃ x, get P k = Some x ∧ isinstance x t = true) →
    matches tP P.

(** Some level that is compared has different key sets. *)
Inductive key_mismatch : dict decl → dict value → Prop :=
| key_mismatch_here (tP : dict decl) (P : dict value) :
    ¬ (∀ k, k ∈ keys tP ↔ k ∈ keys P) → key_mismatch tP P
| key_mismatch_below (tP : dict decl) (P : dict value) k sub subP :
    (k, D_pset sub) ∈ tP → get P k = Some (V_pset subP) →
    key_mismatch sub subP → key_mismatch tP P.

(** Some declared entry meets a supplied value of the wrong type. *)
Inductive type_mismatch : dict decl → dict value → Prop :=
| type_mismatch_leaf (tP : dict decl) (P : dict value) k t x :
    (k, D_type t) ∈ tP → get P k = Some x → isinstance x t = false →
    type_mismatch tP P
| type_mismatch_pset (tP : dict decl) (P : dict value) k sub x :
    (k, D_pset sub) ∈ tP → get P k = Some x → is_ParameterSet x = false →
    type_mismatch tP P
| type_mismatch_below (tP : dict decl) (P : dict value) k sub subP :
    (k, D_pset sub) ∈ tP → get P k = Some (V_pset subP) →
    type_mismatch sub subP → type_mismatch tP P.

(** The declaration of [k] by the class furthest along the MRO that
    declares [k] in its own body. *)
Fixpoint last_declaration (mro : list pyclass) (k : string) : option decl :=
  match mro with
  | [] => None
  | cls :: bases =>
      match last_declaration bases k with
      | Some d => Some d
      | None => cls_required_parameters cls ≫= λ rp, get rp k
      end
  end.

(** What a successful loop body says about one declared entry. *)
Definition entry_matches (v : decl) (x : value) : Prop :=
  match v with
  | D_type t => isinstance x t = true
  | D_pset sub => ∃ subP, x = V_pset subP ∧ matches sub subP
  end.

(** What an exception of [walk] says about the two trees, and what an
    exception of the loop body says about one declared entry. *)
Definition level_raises (e : exn) (tP : dict decl) (P : dict value) : Prop :=
  (e = KeyError ∧ key_mismatch tP P) ∨
  (e = AssertionError ∧ type_mismatch tP P).

Definition entry_raises (e : exn) (v : decl) (x : value) : Prop :=
  match v, x with
  | D_type t, _ => e = AssertionError ∧ isinstance x t = false
  | D_pset sub, V_pset subP => level_raises e sub subP
  | D_pset _, _ => e = AssertionError
  end.

(** Every class declares a parameter name at most once (its
    [required_parameters] is a dictionary). *)
Definition wf_mro (mro : list pyclass) : Prop :=
  Forall (λ cls, ∀ rp, cls_required_parameters cls = Some rp → NoDup (keys rp))
    mro.

(** *** A small class hierarchy to run the definitions on *)

Definition cls_object : pyclass :=
  {| cls_name := "object"; cls_required_parameters := None |}.
Definition cls_MozaikLiteParametrizeObject : pyclass :=
  {| cls_name := "MozaikLiteParametrizeObject";
     cls_required_parameters := Some [] |}.
Definition cls_MozaikComponent : pyclass :=
  {| cls_name := "MozaikComponent"; cls_required_parameters := None |}.
Definition cls_Sheet : pyclass :=
  {| cls_name := "Sheet";
     cls_required_parameters :=
       Some [("name", D_type T_str);
             ("cell", D_pset [("model", D_type T_str);
                              ("params", D_type T_ParameterSet)])] |}.
Definition cls_RetinalSheet : pyclass :=
  {| cls_name := "RetinalSheet";
     cls_required_parameters :=
       Some [("name", D_type T_int); ("density", D_type T_float)] |}.

Definition mro_RetinalSheet : list pyclass :=
  [cls_RetinalSheet; cls_Sheet; cls_MozaikComponent;
   cls_MozaikLiteParametrizeObject; cls_object].

Definition good_parameters : dict value :=
  [("cell", V_pset [("params", V_pset [("tau", V_float (1#2))]);
                    ("model", V_str "IF_cond_exp")]);
   ("density", V_float (10#1)); ("name", V_str "Retina")].

Example declared_tree_RetinalSheet :
  declared_tree mro_RetinalSheet =
    [("name", D_type T_str); ("density", D_type T_float);
     ("cell", D_pset [("model", D_type T_str);
                      ("params", D_type T_ParameterSet)])].
Proof. reflexivity. Qed.

Example check_good : check_parameters mro_RetinalSheet good_parameters = Return ().
Proof. vm_compute. reflexivity. Qed.

Example check_missing_key :
  check_parameters mro_RetinalSheet [("name", V_str "Retina")] = Raise KeyError.
Proof. vm_compute. reflexivity. Qed.

(** With a wrong type at [a] and a wrong key set below [b], the item the
    loop reaches first decides the exception. *)
Example check_type_mismatch_first :
  walk [("a", D_type T_int); ("b", D_pset [("c", D_type T_int)])]
       [("a", V_str "x"); ("b", V_pset [("d", V_int 1)])]
  = Raise AssertionError.
Proof. vm_compute. reflexivity. Qed.

Example check_key_mismatch_first :
  walk [("b", D_pset [("c", D_type T_int)]); ("a", D_type T_int)]
       [("a", V_str "x"); ("b", V_pset [("d", V_int 1)])]
  = Raise KeyError.
Proof. vm_compute. reflexivity. Qed.

Example check_wrong_type :
  check_parameters mro_RetinalSheet
    [("name", V_int 3); ("density", V_float (10#1));
     ("cell", V_pset [("model", V_str "IF"); ("params", V_pset [])])]
  = Raise Exception.
Proof. vm_compute. reflexivity. Qed.

(** *** Properties of [walk] *)

Lemma decl_nested_ind (Q : decl → Prop) :
  (∀ t, Q (D_type t)) →
  (∀ items, Forall (λ kv, Q kv.2) items → Q (D_pset items)) →
  ∀ d, Q d.
Proof.
  intros Ht Hs. fix IH 1. intros [t|items]; [apply Ht|].
  apply Hs. induction items as [|[k v] items IHi]; constructor.
  - apply IH.
  - apply IHi.
Qed.

Lemma walk_items_return check P items :
  walk_items check P items = Return () ↔
  ∀ k v, (k, v) ∈ items → ∃ x, get P k = Some x ∧ check v x = Return ().
Proof.
  induction items as [|[k v] items IH]; simpl.
  - split; [|done]. intros _ k v H. inversion H.
  - destruct (get P k) as [x|] eqn:Hx.
    + destruct (check v x) as [[]|e] eqn:Hc; simpl.
      * rewrite IH. split.
        -- intros H k' v' Hin. inversion Hin; subst; eauto.
        -- intros H k' v' Hin. apply H. by right.
      * split; [done|]. intros H.
        destruct (H k v) as (x' & Hx' & Hc'); [left|]. congruence.
    + split; [done|]. intros H.
      destruct (H k v) as (x' & Hx' & _); [left|]. congruence.
Qed.

Lemma walk_items_raise check P items e :
  walk_items check P items = Raise e →
  ∃ k v, (k, v) ∈ items ∧
    ((get P k = None ∧ e = KeyError) ∨
     (∃ x, get P k = Some x ∧ check v x = Raise e)).
Proof.
  induction items as [|[k v] items IH]; simpl; [done|].
  destruct (get P k) as [x|] eqn:Hx.
  - destruct (check v x) as [[]|e'] eqn:Hc; simpl.
    + intros H. destruct (IH H) as (k' & v' & Hin & Hk).
      exists k', v'. split; [by right | done].
    + intros [= ->]. exists k, v. split; [left|]. right. eauto.
  - intros [= <-]. exists k, v. split; [left|]. by left.
Qed.

Lemma walk_entry_pset sub x :
  walk_entry (D_pset sub) x =
    match x with
    | V_pset subP => walk sub subP
    | _ => Raise AssertionError
    end.
Proof. by destruct x. Qed.

Lemma walk_unfold tP P :
  walk tP P =
    if same_keys tP P then walk_items walk_entry P tP else Raise KeyError.
Proof. reflexivity. Qed.

Lemma matches_entries tP P :
  matches tP P ↔
  (∀ k, k ∈ keys tP ↔ k ∈ keys P) ∧
  (∀ k v, (k, v) ∈ tP → ∃ x, get P k = Some x ∧ entry_matches v x).
Proof.
  split.
  - intros H. inversion H as [tP' P' Hk Hs Ht]; subst. split; [done|].
    intros k [t|sub] Hin; simpl.
    + apply (Ht _ _ Hin).
    + destruct (Hs _ _ Hin) as (subP & ? & ?). eauto.
  - intros [Hk He]. constructor; [done | |].
    + intros k sub Hin. destruct (He _ _ Hin) as (x & Hx & subP & -> & Hm).
      eauto.
    + intros k t Hin. apply (He _ _ Hin).
Qed.

Lemma walk_return_with tP P :
  Forall (λ kv, ∀ x, walk_entry kv.2 x = Return () ↔ entry_matches kv.2 x) tP →
  walk tP P = Return () ↔ matches tP P.
Proof.
  intros IH. rewrite Forall_forall in IH.
  rewrite walk_unfold, matches_entries.
  destruct (same_keys tP P) eqn:Hk.
  - rewrite walk_items_return.
    pose proof (proj1 (same_keys_spec tP P) Hk) as Hk'.
    split.
    + intros H. split; [done|]. intros k v Hin.
      destruct (H k v Hin) as (x & Hx & Hc). exists x. split; [done|].
      by apply (IH (k, v)).
    + intros [_ H] k v Hin.
      destruct (H k v Hin) as (x & Hx & Hc). exists x. split; [done|].
      by apply (IH (k, v)).
  - split; [done|]. intros [H _].
    pose proof (proj2 (same_keys_spec tP P) H). congruence.
Qed.

Lemma walk_entry_return v :
  ∀ x, walk_entry v x = Return () ↔ entry_matches v x.
Proof.
  induction v as [t|sub IH] using decl_nested_ind; intros x.
  - simpl. by destruct (isinstance x t).
  - rewrite walk_entry_pset. simpl. destruct x as [| | | | |subP];
      try (split; [done | by intros (? & [=] & _)]).
    rewrite (walk_return_with _ _ IH). split; [eauto|].
    by intros (? & [= <-] & ?).
Qed.

Lemma walk_return tP P : walk tP P = Return () ↔ matches tP P.
Proof.
  apply walk_return_with, Forall_forall. intros [k v] _. apply walk_entry_return.
Qed.

Lemma elem_keys {V} (d : dict V) k v : (k, v) ∈ d → k ∈ keys d.
Proof. intros H. unfold keys. apply list_elem_of_fmap. by exists (k, v). Qed.

Lemma walk_raise_with tP P e :
  Forall (λ kv, ∀ x e, walk_entry kv.2 x = Raise e → entry_raises e kv.2 x) tP →
  walk tP P = Raise e → level_raises e tP P.
Proof.
  intros IH. rewrite Forall_forall in IH. rewrite walk_unfold.
  destruct (same_keys tP P) eqn:Hk.
  - pose proof (proj1 (same_keys_spec tP P) Hk) as Hk'.
    intros H. apply walk_items_raise in H as (k & v & Hin & [[Hn _]|(x & Hx & Hc)]).
    + apply get_None in Hn. destruct Hn. apply Hk'. by eapply elem_keys.
    + apply (IH (k, v) Hin) in Hc. simpl in Hc.
      destruct v as [t|sub]; simpl in Hc.
      * destruct Hc as [-> Hi]. right. split; [done|].
        by eapply type_mismatch_leaf.
      * destruct x as [| | | | |subP];
          try (subst e; right; split; [done|];
               by eapply type_mismatch_pset).
        destruct Hc as [[-> Hm]|[-> Hm]]; [left | right]; split; try done.
        -- by eapply key_mismatch_below.
        -- by eapply type_mismatch_below.
  - intros [= <-]. left. split; [done|]. apply key_mismatch_here.
    intros H. pose proof (proj2 (same_keys_spec tP P) H). congruence.
Qed.

Lemma walk_entry_raise v : ∀ x e, walk_entry v x = Raise e → entry_raises e v x.
Proof.
  induction v as [t|sub IH] using decl_nested_ind; intros x e.
  - simpl. destruct (isinstance x t) eqn:Hi; [done|]. by intros [= <-].
  - rewrite walk_entry_pset.
    destruct x as [| | | | |subP]; simpl; try by intros [= <-].
    by apply walk_raise_with.
Qed.

Lemma walk_raise tP P e : walk tP P = Raise e → level_raises e tP P.
Proof.
  apply walk_raise_with, Forall_forall. intros [k v] _. apply walk_entry_raise.
Qed.

Lemma key_mismatch_not_matches tP P : key_mismatch tP P → ¬ matches tP P.
Proof.
  induction 1 as [tP P Hk | tP P k sub subP Hin Hg _ IH]; intros Hm;
    inversion Hm as [? ? Hkeys Hsets _]; subst.
  - by apply Hk.
  - destruct (Hsets _ _ Hin) as (subP' & Hg' & Hm'). congruence.
Qed.

Lemma type_mismatch_not_matches tP P : type_mismatch tP P → ¬ matches tP P.
Proof.
  induction 1 as [tP P k t x Hin Hg Hi | tP P k sub x Hin Hg Hi
                 | tP P k sub subP Hin Hg _ IH]; intros Hm;
    inversion Hm as [? ? _ Hsets Htypes]; subst.
  - destruct (Htypes _ _ Hin) as (x' & Hg' & Hi'). congruence.
  - destruct (Hsets _ _ Hin) as (subP' & Hg' & _).
    rewrite Hg in Hg'. injection Hg' as ->. done.
  - destruct (Hsets _ _ Hin) as (subP' & Hg' & Hm'). congruence.
Qed.

Lemma check_parameters_walk mro P :
  check_parameters mro P =
    match walk (declared_tree mro) P with
    | Return _ => Return ()
    | Raise KeyError => Raise KeyError
    | Raise _ => Raise Exception
    end.
Proof.
  unfold check_parameters.
  destruct (walk (declared_tree mro) P) as [[]|e] eqn:Hw; [done|].
  apply walk_raise in Hw as [[-> _]|[-> _]]; done.
Qed.

Lemma check_parameters_return mro P :
  check_parameters mro P = Return () ↔ matches (declared_tree mro) P.
Proof.
  rewrite check_parameters_walk, <- walk_return.
  destruct (walk (declared_tree mro) P) as [[]|[]]; done.
Qed.

(** C1. [check_parameters] returns normally exactly when the supplied tree
    matches the declared one (same key set at every level, a supplied
    [ParameterSet] for every declared one, an instance for every declared
    type).  Otherwise it raises [KeyError] or [Exception] and nothing else:
    a [KeyError] comes from a key-set difference, an [Exception] from a
    type mismatch (the wrapped [AssertionError]), and when only one of the
    two kinds of mismatch is present that kind decides the exception. *)
Theorem check_parameters_raises_iff_mismatch mro (parameters : dict value) :
  let tP := declared_tree mro in
  let outcome := check_parameters mro parameters in
  (outcome = Return () ↔ matches tP parameters) ∧
  (outcome = Return () ∨ outcome = Raise KeyError ∨ outcome = Raise Exception) ∧
  (outcome = Raise KeyError → key_mismatch tP parameters) ∧
  (outcome = Raise Exception → type_mismatch tP parameters) ∧
  (key_mismatch tP parameters → ¬ type_mismatch tP parameters →
   outcome = Raise KeyError) ∧
  (type_mismatch tP parameters → ¬ key_mismatch tP parameters →
   outcome = Raise Exception).
Proof.
  intros tP outcome. subst outcome. rewrite check_parameters_walk. fold tP.
  pose proof (walk_return tP parameters) as Hret.
  pose proof (walk_raise tP parameters) as Hraise.
  pose proof (key_mismatch_not_matches tP parameters) as Hkm.
  pose proof (type_mismatch_not_matches tP parameters) as Htm.
  destruct (walk tP parameters) as [[]|e].
  - split_and!; try done.
    + by left.
    + intros Hk _. destruct (Hkm Hk). by apply Hret.
    + intros Ht _. destruct (Htm Ht). by apply Hret.
  - assert (Hno : ¬ matches tP parameters).
    { intros Hm. apply Hret in Hm. done. }
    destruct (Hraise e eq_refl) as [[-> Hk]|[-> Ht]]; simpl;
      split_and!; first [done | auto].
Qed.

(** *** The merged declaration tree *)

Lemma get_elem_NoDup {V} (d : dict V) k v :
  NoDup (keys d) → (k, v) ∈ d → get d k = Some v.
Proof.
  unfold keys. induction d as [|[k' v'] d IH]; simpl; intros Hnd Hin.
  - inversion Hin.
  - apply NoDup_cons in Hnd as [Hk Hnd]. case_decide as Heq.
    + subst k'. inversion Hin; subst; [done|].
      destruct Hk. by eapply elem_keys.
    + inversion Hin; subst; [done|]. by apply IH.
Qed.

Lemma get_reverse {V} (d : dict V) k :
  NoDup (keys d) → get (reverse d) k = get d k.
Proof.
  intros Hnd. destruct (get d k) as [v|] eqn:Hg.
  - apply get_elem_NoDup.
    + unfold keys. by rewrite fmap_reverse, reverse_Permutation.
    + apply elem_of_reverse. by apply get_Some_elem.
  - apply get_None. apply get_None in Hg. unfold keys in *.
    rewrite fmap_reverse, elem_of_reverse. done.
Qed.

Lemma required_parameters_own mro rp :
  required_parameters mro = Some rp →
  ∃ cls, cls ∈ mro ∧ cls_required_parameters cls = Some rp.
Proof.
  induction mro as [|cls bases IH]; simpl; [done|].
  destruct (cls_required_parameters cls) as [rp'|] eqn:Hown.
  - intros [= ->]. exists cls. split; [left | done].
  - intros H. destruct (IH H) as (c & Hin & Hc). exists c. split; [by right | done].
Qed.

Lemma last_declaration_None mro k :
  last_declaration mro k = None ↔
  ∀ cls rp, cls ∈ mro → cls_required_parameters cls = Some rp → get rp k = None.
Proof.
  induction mro as [|cls bases IH]; simpl.
  - split; [|done]. intros _ cls rp H. inversion H.
  - destruct (last_declaration bases k) as [d|] eqn:Hl.
    + split; [done|]. intros H.
      assert (Some d = None) as [=]. apply IH. intros c rp Hin. apply H. by right.
    + split.
      * intros Hown c rp Hin Hc. inversion Hin; subst.
        -- rewrite Hc in Hown. done.
        -- by eapply (proj1 IH).
      * intros H. destruct (cls_required_parameters cls) as [rp|] eqn:Hown; [|done].
        simpl. apply (H cls rp); [left | done].
Qed.

Lemma last_declaration_Some mro k d :
  last_declaration mro k = Some d →
  ∃ cls rp, cls ∈ mro ∧ cls_required_parameters cls = Some rp ∧
            get rp k = Some d.
Proof.
  induction mro as [|cls bases IH]; simpl; [done|].
  destruct (last_declaration bases k) as [d'|].
  - intros [= ->]. destruct (IH eq_refl) as (c & rp & Hin & Hc & Hg).
    exists c, rp. split_and!; [by right | done | done].
  - destruct (cls_required_parameters cls) as [rp|] eqn:Hown; [|done].
    simpl. intros Hg. exists cls, rp. split_and!; [left | done | done].
Qed.

Lemma get_collect mro d k :
  wf_mro mro →
  get (collect mro d) k =
    match last_declaration mro k with
    | Some v => Some v
    | None => get d k
    end.
Proof.
  unfold wf_mro. revert d. induction mro as [|cls bases IH]; intros d Hwf.
  - done.
  - apply Forall_cons in Hwf as [Hcls Hwf]. simpl.
    destruct (cls_required_parameters cls) as [rp|] eqn:Hown.
    + rewrite (IH _ Hwf). destruct (last_declaration bases k); [done|].
      simpl. rewrite get_update, get_reverse by auto.
      by destruct (get rp k).
    + destruct (required_parameters bases) as [rp|] eqn:Hreq.
      * rewrite (IH _ Hwf).
        destruct (last_declaration bases k) eqn:Hl; [done|]. simpl.
        rewrite get_update.
        apply required_parameters_own in Hreq as (c & Hin & Hc).
        rewrite get_reverse
          by (rewrite Forall_forall in Hwf; by apply (Hwf c)).
        by rewrite (proj1 (last_declaration_None bases k) Hl c rp Hin Hc).
      * rewrite (IH _ Hwf). by destruct (last_declaration bases k).
Qed.

Lemma last_declaration_app l1 l2 k :
  last_declaration (l1 ++ l2) k =
    match last_declaration l2 k with
    | Some d => Some d
    | None => last_declaration l1 k
    end.
Proof.
  induction l1 as [|cls l1 IH]; simpl.
  - by destruct (last_declaration l2 k).
  - rewrite IH. destruct (last_declaration l2 k); [done|].
    done.
Qed.

(** C8. The tree [check_parameters] validates against merges the
    [required_parameters] of every class on the MRO: a name is in it exactly
    when some class declares it, and its declaration is that of the class
    furthest along the MRO that declares it.  So when a class [sub] and an
    ancestor [anc] behind it on the MRO both declare [k] (and no class
    behind [anc] does), the merged tree holds the ancestor's declaration,
    not the subclass's. *)
Theorem declared_tree_ancestor_overrides
    (pre mid post : list pyclass) (sub anc : pyclass) (k : string)
    (rp_sub rp_anc : dict decl) (d_sub d_anc : decl) :
  let mro := pre ++ sub :: mid ++ anc :: post in
  wf_mro mro →
  cls_required_parameters sub = Some rp_sub → get rp_sub k = Some d_sub →
  cls_required_parameters anc = Some rp_anc → get rp_anc k = Some d_anc →
  last_declaration post k = None →
  (∀ P, check_parameters mro P = Return () ↔ matches (declared_tree mro) P) ∧
  (∀ k', get (declared_tree mro) k' = last_declaration mro k') ∧
  (∀ k', k' ∈ keys (declared_tree mro) ↔
     ∃ cls rp, cls ∈ mro ∧ cls_required_parameters cls = Some rp ∧
               k' ∈ keys rp) ∧
  get (declared_tree mro) k = Some d_anc.
Proof.
  intros mro Hwf Hsub Hksub Hanc Hkanc Hpost.
  assert (Hget : ∀ k', get (declared_tree mro) k' = last_declaration mro k').
  { intros k'. unfold declared_tree. rewrite get_collect by done.
    by destruct (last_declaration mro k'). }
  split_and!.
  - intros P. apply check_parameters_return.
  - done.
  - intros k'. rewrite <- get_is_Some, Hget. split.
    + intros [d Hd].
      apply last_declaration_Some in Hd as (c & rp & Hin & Hc & Hg).
      exists c, rp. split_and!; [done | done |]. apply get_is_Some. eauto.
    + intros (c & rp & Hin & Hc & Hk).
      destruct (last_declaration mro k') eqn:Hl; [done|].
      rewrite last_declaration_None in Hl.
      apply get_is_Some in Hk as [v Hv]. rewrite (Hl c rp Hin Hc) in Hv. done.
  - rewrite Hget. subst mro.
    rewrite last_declaration_app. simpl. rewrite last_declaration_app. simpl.
    rewrite Hpost, Hanc. simpl. by rewrite Hkanc.
Qed.

Lemma wf_mro_RetinalSheet : wf_mro mro_RetinalSheet.
Proof.
  unfold wf_mro, mro_RetinalSheet.
  repeat apply Forall_cons_2; [..| apply Forall_nil_2]; simpl.
  all: intros rp Hrp; try discriminate Hrp; injection Hrp as <-.
  all: apply (bool_decide_unpack _); vm_compute; exact I.
Qed.

(** [RetinalSheet] declares [name] as an [int], its base [Sheet] as a [str]:
    the merged tree asks for a [str]. *)
Lemma declared_tree_ancestor_overrides_witness :
  get (declared_tree mro_RetinalSheet) "name" = Some (D_type T_str).
Proof.
  apply (declared_tree_ancestor_overrides [] []
           [cls_MozaikComponent; cls_MozaikLiteParametrizeObject; cls_object]
           cls_RetinalSheet cls_Sheet "name"
           [("name", D_type T_int); ("density", D_type T_float)]
           [("name", D_type T_str);
            ("cell", D_pset [("model", D_type T_str);
                             ("params", D_type T_ParameterSet)])]
           (D_type T_int) (D_type T_str)).
  - exact wf_mro_RetinalSheet.
  - reflexivity.
  - reflexivity.
  - reflexivity.
  - reflexivity.
  - reflexivity.
Defined.

(** *** Further properties of [check_parameters] *)

Lemma get_Permutation {V} (d d' : dict V) k :
  NoDup (keys d) → d ≡ₚ d' → get d k = get d' k.
Proof.
  intros Hnd Hperm.
  assert (Hnd' : NoDup (keys d')) by (unfold keys in *; by rewrite <- Hperm).
  destruct (get d k) as [v|] eqn:Hg.
  - symmetry. apply get_elem_NoDup; [done|]. rewrite <- Hperm.
    by apply get_Some_elem.
  - symmetry. apply get_None. apply get_None in Hg. unfold keys in *.
    by rewrite <- Hperm.
Qed.

Lemma walk_items_ext check (P P' : dict value) items :
  (∀ k, get P k = get P' k) →
  walk_items check P items = walk_items check P' items.
Proof.
  intros Hext. induction items as [|[k v] items IH]; simpl; [done|].
  rewrite <- Hext. destruct (get P k) as [x|]; [|done]. by rewrite IH.
Qed.

Lemma same_keys_ext (tP : dict decl) (P P' : dict value) :
  (∀ k, get P k = get P' k) → same_keys tP P = same_keys tP P'.
Proof.
  intros Hext.
  assert (Hk : ∀ k, k ∈ keys P ↔ k ∈ keys P').
  { intros k. by rewrite <- !get_is_Some, Hext. }
  destruct (same_keys tP P) eqn:H1, (same_keys tP P') eqn:H2; try done.
  - pose proof (proj1 (same_keys_spec tP P) H1) as H.
    assert (same_keys tP P' = true); [|congruence].
    apply same_keys_spec. intros k. by rewrite H, Hk.
  - pose proof (proj1 (same_keys_spec tP P') H2) as H.
    assert (same_keys tP P = true); [|congruence].
    apply same_keys_spec. intros k. by rewrite H, Hk.
Qed.

(** X8. The order in which the supplied parameter set lists its items
    does not matter: two supplied sets with the same items give the same
    outcome, the same exception included. *)
Theorem check_parameters_ignores_supplied_order mro (P P' : dict value) :
  NoDup (keys P) → P ≡ₚ P' →
  check_parameters mro P = check_parameters mro P'.
Proof.
  intros Hnd Hperm.
  assert (Hext : ∀ k, get P k = get P' k)
    by (intros k; by apply get_Permutation).
  unfold check_parameters. rewrite !walk_unfold.
  by rewrite (same_keys_ext _ _ _ Hext), (walk_items_ext _ _ _ _ Hext).
Qed.

(** X9. The key sets are compared before any type: a supplied top-level
    parameter that no class declares, or a declared one that is not
    supplied, makes [check_parameters] raise [KeyError] whatever the
    values are. *)
Theorem undeclared_or_missing_key_raises_KeyError mro (P : dict value) k :
  ((k ∈ keys P) ∧ (k ∉ keys (declared_tree mro))) ∨
  ((k ∉ keys P) ∧ (k ∈ keys (declared_tree mro))) →
  check_parameters mro P = Raise KeyError.
Proof.
  intros Hk. unfold check_parameters. rewrite walk_unfold.
  destruct (same_keys (declared_tree mro) P) eqn:Hsame; [|done].
  pose proof (proj1 (same_keys_spec _ _) Hsame k) as Hiff.
  destruct Hk as [[Hin Hnot]|[Hnot Hin]]; tauto.
Qed.

Lemma update_nil {V} (d : dict V) : update d [] = d.
Proof. done. Qed.

Lemma collect_no_declarations mro d :
  Forall (λ cls, cls_required_parameters cls = None ∨
                 cls_required_parameters cls = Some []) mro →
  collect mro d = d.
Proof.
  induction 1 as [|cls bases Hcls Hall IH]; [done|]. simpl.
  destruct Hcls as [-> | ->]; [|by rewrite update_nil].
  destruct (required_parameters bases) as [rp|] eqn:Hreq; [|done].
  apply required_parameters_own in Hreq as (c & Hin & Hc).
  rewrite Forall_forall in Hall. destruct (Hall c Hin) as [Hn|Hn];
    rewrite Hn in Hc; [done|]. injection Hc as <-. by rewrite update_nil.
Qed.

(** X10. A class hierarchy that declares no parameter (like
    [MozaikLiteParametrizeObject] itself, whose [required_parameters] is
    empty) accepts the empty parameter set and nothing else: every
    non-empty set raises [KeyError]. *)
Theorem no_declared_parameters_accepts_only_empty mro (P : dict value) :
  Forall (λ cls, cls_required_parameters cls = None ∨
                 cls_required_parameters cls = Some []) mro →
  (P = [] → check_parameters mro P = Return ()) ∧
  (P ≠ [] → check_parameters mro P = Raise KeyError).
Proof.
  intros Hnone. unfold check_parameters, declared_tree.
  rewrite (collect_no_declarations _ _ Hnone). split.
  - by intros ->.
  - intros Hne. rewrite walk_unfold.
    destruct (same_keys [] P) eqn:Hsame; [|done].
    destruct P as [|[k v] P]; [done|].
    pose proof (proj2 (proj1 (same_keys_spec _ _) Hsame k)) as Hin.
    assert (k ∈ keys ([] : dict decl)) as Hk by (apply Hin; left).
    inversion Hk.
Qed.

Lemma set_same {V} (d : dict V) k v : get d k = Some v → set d k v = d.
Proof.
  induction d as [|[k' v'] d IH]; simpl; [done|].
  case_decide as Hk.
  - by intros [= ->].
  - intros Hg. by rewrite IH.
Qed.

Lemma update_same {V} (d other : dict V) :
  (∀ k v, (k, v) ∈ other → get d k = Some v) → update d other = d.
Proof.
  unfold update. induction other as [|[k v] other IH]; intros Hall; [done|].
  simpl. rewrite set_same by (apply Hall; left).
  apply IH. intros k' v' Hin. apply Hall. by right.
Qed.

Lemma update_update {V} (d rp : dict V) :
  NoDup (keys rp) → update (update d rp) rp = update d rp.
Proof.
  intros Hnd. apply update_same. intros k v Hin.
  rewrite get_update, get_reverse by done.
  by rewrite (get_elem_NoDup _ _ _ Hnd Hin).
Qed.

Lemma collect_resolved bases (d rp : dict decl) :
  required_parameters bases = Some rp → NoDup (keys rp) →
  collect bases (update d rp) = collect bases d.
Proof.
  intros Hreq Hnd. destruct bases as [|b rest]; [done|].
  cbn [collect]. rewrite Hreq. by rewrite update_update.
Qed.

(** X11. A class that has no [required_parameters] of its own is validated
    exactly like its base class: the attribute it inherits is merged twice,
    which changes nothing. *)
Theorem class_without_declarations_validates_like_base
    cls bases (P : dict value) :
  cls_required_parameters cls = None → wf_mro bases →
  declared_tree (cls :: bases) = declared_tree bases ∧
  check_parameters (cls :: bases) P = check_parameters bases P.
Proof.
  intros Hown Hwf.
  assert (Htree : declared_tree (cls :: bases) = declared_tree bases).
  { unfold declared_tree. cbn [collect required_parameters]. rewrite Hown.
    destruct (required_parameters bases) as [rp|] eqn:Hreq; [|done].
    apply collect_resolved; [done|].
    apply required_parameters_own in Hreq as (c & Hin & Hc).
    unfold wf_mro in Hwf. rewrite Forall_forall in Hwf. by apply (Hwf c). }
  split; [done|]. unfold check_parameters. by rewrite Htree.
Qed.

Lemma check_parameters_ignores_supplied_order_witness :
  check_parameters mro_RetinalSheet good_parameters =
  check_parameters mro_RetinalSheet (reverse good_parameters).
Proof.
  apply check_parameters_ignores_supplied_order.
  - apply (bool_decide_unpack _). vm_compute. exact I.
  - symmetry. apply reverse_Permutation.
Defined.

Lemma undeclared_or_missing_key_raises_KeyError_witness :
  check_parameters mro_RetinalSheet
    (("colour", V_int 1) :: good_parameters) = Raise KeyError.
Proof.
  apply (undeclared_or_missing_key_raises_KeyError _ _ "colour"). left. split.
  - left.
  - apply (bool_decide_unpack _). vm_compute. exact I.
Defined.

Lemma no_declared_parameters_accepts_only_empty_witness :
  check_parameters
    [cls_MozaikComponent; cls_MozaikLiteParametrizeObject; cls_object]
    [("name", V_str "Retina")] = Raise KeyError.
Proof.
  apply no_declared_parameters_accepts_only_empty; [|done].
  repeat apply Forall_cons_2; [by left | by right | by left | apply Forall_nil_2].
Defined.

Lemma class_without_declarations_validates_like_base_witness :
  check_parameters
    [cls_MozaikComponent; cls_MozaikLiteParametrizeObject; cls_object] []
  = check_parameters [cls_MozaikLiteParametrizeObject; cls_object] [].
Proof.
  apply class_without_declarations_validates_like_base; [done|].
  unfold wf_mro. repeat apply Forall_cons_2; [..| apply Forall_nil_2]; simpl.
  all: intros rp Hrp; try discriminate Hrp; injection Hrp as <-.
  all: apply NoDup_nil_2.
Defined.

End Parametrized.

(** ** Components and connectors ([framework/interfaces.py]) *)
Module Components.
Import PyDict Parametrized.

(** An object the connector refers to: its identity and the name of its
    class. *)
Record pyobject : Type := {
  obj_ref : nat;
  obj_class_name : string
}.

(** [MozaikLiteParametrizeObject.__init__]: the value of
    [self.parameters]. *)
Definition MozaikLiteParametrizeObject__init__ (mro : list pyclass)
    (parameters : dict value) : result (dict value) :=
  check_parameters mro parameters ≫= λ _, Return parameters.

(** The attributes of a [MozaikComponent]; [network] is a reference. *)
Record MozaikComponent : Type := {
  mc_parameters : dict value;
  mc_network : nat
}.

Definition MozaikComponent__init__ (mro : list pyclass) (network : nat)
    (parameters : dict value) : result MozaikComponent :=
  ps ← MozaikLiteParametrizeObject__init__ mro parameters;
  Return {| mc_parameters := ps; mc_network := network |}.

(** [heap[r] = x] on a store indexed by references. *)
Definition store {A} (heap : nat → A) (r : nat) (x : A) : nat → A :=
  λ r', if decide (r' = r) then x else heap r'.

(** The dictionary [describe] builds. *)
Record context (D : Type) : Type := {
  ctx_name : string;
  ctx_source_name : string;
  ctx_target_name : string;
  ctx_projections : list D
}.
Arguments ctx_name {D} _.
Arguments ctx_source_name {D} _.
Arguments ctx_target_name {D} _.
Arguments ctx_projections {D} _.

Section Connector.

(** From outside these sources: the state of a network object, its method
    [register_connector], its attribute [sim]; the projections of a
    connector with their [describe(template=None)]. *)
Context {Network Sim Projection Description : Type}.
Variable register_connector : nat → Network → Network.
Variable network_sim : Network → Sim.
Variable projection_describe : Projection → result Description.

(** What the constructor acts on besides [self]: the log, the network
    objects by reference, and the [input] attribute of the other objects. *)
Record world : Type := {
  log : list string;
  networks : nat → Network;
  inputs : nat → option nat
}.

(** The attributes of a [VisualSystemConnector]; [projections] is assigned
    by subclasses only ([None]: not assigned). *)
Record VisualSystemConnector : Type := {
  parameters : dict value;
  network : nat;
  sim : Sim;
  source : pyobject;
  target : pyobject;
  input : pyobject;
  projections : option (list Projection)
}.

Definition class_name (mro : list pyclass) : string :=
  match mro with
  | cls :: _ => cls_name cls
  | [] => ""
  end.

Definition VisualSystemConnector__init__ (mro : list pyclass) (self : nat)
    (network : nat) (source target : pyobject) (parameters : dict value)
    (w : world) : world * result VisualSystemConnector :=
  let w1 :=
    {| log := log w ++
              ["Creating " +:+ class_name mro +:+ " between " +:+
               obj_class_name source +:+ " and " +:+ obj_class_name target];
       networks := networks w; inputs := inputs w |} in
  match MozaikComponent__init__ mro network parameters with
  | Raise e => (w1, Raise e)
  | Return mc =>
      let registered :=
        register_connector self (networks w1 (mc_network mc)) in
      let w2 :=
        {| log := log w1;
           networks := store (networks w1) (mc_network mc) registered;
           inputs := store (inputs w1) (obj_ref target) (Some self) |} in
      (w2, Return {| parameters := mc_parameters mc;
                     network := mc_network mc;
                     sim := network_sim registered;
                     source := source; target := target; input := source;
                     projections := None |})
  end.

(** The list comprehension over [self.projections]. *)
Fixpoint describe_projections (ps : list Projection)
    : result (list Description) :=
  match ps with
  | [] => Return []
  | p :: ps' =>
      d ← projection_describe p;
      ds ← describe_projections ps';
      Return (d :: ds)
  end.

(** [describe(self, template, render)]; [template] is [None] or a string,
    the result [None] is Python's [None]. *)
Definition describe {R : Type} (mro : list pyclass)
    (self : VisualSystemConnector) (template : option string)
    (render : string → context Description → result R)
    : result (option (context Description)) :=
  match projections self with
  | None => Raise AttributeError
  | Some ps =>
      ds ← describe_projections ps;
      let context :=
        {| ctx_name := class_name mro;
           ctx_source_name := obj_class_name (source self);
           ctx_target_name := obj_class_name (target self);
           ctx_projections := ds |} in
      match template with
      | Some t =>
          if decide (t = "") then Return (Some context)
          else render t context ≫= λ _, Return None
      | None => Return (Some context)
      end
  end.

(** X12. A connector whose parameters fail validation is never wired in:
    the constructor raises what [check_parameters] raises, and the only
    trace it leaves is the log line; no network is touched and no [input]
    attribute is assigned. *)
Theorem rejected_connector_is_not_registered
    mro self net src tgt (ps : dict value) (w : world) e :
  check_parameters mro ps = Raise e →
  (VisualSystemConnector__init__ mro self net src tgt ps w).2 = Raise e ∧
  networks (VisualSystemConnector__init__ mro self net src tgt ps w).1
    = networks w ∧
  inputs (VisualSystemConnector__init__ mro self net src tgt ps w).1
    = inputs w ∧
  length (log (VisualSystemConnector__init__ mro self net src tgt ps w).1)
    = S (length (log w)).
Proof.
  intros Hcheck. unfold VisualSystemConnector__init__,
    MozaikComponent__init__, MozaikLiteParametrizeObject__init__.
  rewrite Hcheck. simpl. split_and!; try done.
  rewrite length_app. simpl. lia.
Qed.

(** X13. A connector whose parameters match is wired in: it is registered
    with its network once, [sim] is read from the registered network, its
    [input] is the source, it becomes the [input] of its target, and every
    other network and every other object's [input] is as before. *)
Theorem accepted_connector_is_wired
    mro self net src tgt (ps : dict value) (w : world) :
  matches (declared_tree mro) ps →
  ∃ w' c,
    VisualSystemConnector__init__ mro self net src tgt ps w = (w', Return c) ∧
    parameters c = ps ∧ network c = net ∧ source c = src ∧ target c = tgt ∧
    input c = src ∧
    networks w' net = register_connector self (networks w net) ∧
    sim c = network_sim (networks w' net) ∧
    inputs w' (obj_ref tgt) = Some self ∧
    (∀ n, n ≠ net → networks w' n = networks w n) ∧
    (∀ o, o ≠ obj_ref tgt → inputs w' o = inputs w o).
Proof.
  intros Hm. apply check_parameters_return in Hm.
  unfold VisualSystemConnector__init__, MozaikComponent__init__,
    MozaikLiteParametrizeObject__init__.
  rewrite Hm. simpl. eexists _, _. split; [reflexivity|]. simpl.
  unfold store. split_and!; try done.
  - by rewrite decide_True.
  - by rewrite decide_True.
  - by rewrite decide_True.
  - intros n Hn. by rewrite decide_False.
  - intros o Ho. by rewrite decide_False.
Qed.

(** X14. [describe] never returns what [render] produced: with a non-empty
    template (the default is ['default']) it calls [render] and returns
    [None]; only with [None] or an empty template it returns the context,
    which names the classes of the connector, its source and its target.
    Either way it needs [self.projections], which the constructor above
    does not assign. *)
Theorem describe_returns_context_only_without_template
    {R : Type} mro (self : VisualSystemConnector) (template : option string)
    (render : string → context Description → result R) out :
  describe mro self template render = Return out →
  (∃ ps, projections self = Some ps) ∧
  match out with
  | None => ∃ t, template = Some t ∧ t ≠ ""
  | Some c =>
      (template = None ∨ template = Some "") ∧
      ctx_name c = class_name mro ∧
      ctx_source_name c = obj_class_name (source self) ∧
      ctx_target_name c = obj_class_name (target self) ∧
      describe_projections
        (default [] (projections self)) = Return (ctx_projections c)
  end.
Proof.
  unfold describe. destruct (projections self) as [ps|]; [|done]. simpl.
  destruct (describe_projections ps) as [ds|e]; [|done]. simpl.
  intros Hout. split; [eauto|].
  destruct template as [t|].
  - case_decide as Ht.
    + injection Hout as <-. subst t. split_and!; auto.
    + destruct (render t _) as [r|e]; [|done]. injection Hout as <-. eauto.
  - injection Hout as <-. split_and!; auto.
Qed.

End Connector.

(** *** A connector to run the definitions on *)

Definition demo_world : @world nat :=
  {| log := []; networks := λ _, 0%nat; inputs := λ _, None |}.

Definition demo_retina : pyobject :=
  {| obj_ref := 1; obj_class_name := "Retina" |}.
Definition demo_cortex : pyobject :=
  {| obj_ref := 2; obj_class_name := "Cortex" |}.

Definition mro_connector : list pyclass :=
  [{| cls_name := "DemoConnector";
      cls_required_parameters := Some [("weight", D_type T_float)] |};
   {| cls_name := "VisualSystemConnector"; cls_required_parameters := None |};
   cls_MozaikComponent; cls_MozaikLiteParametrizeObject; cls_object].

(** Registering counts the connectors of a network. *)
Definition demo_construct_connector (ps : dict value)
    : @world nat * result (@VisualSystemConnector nat unit) :=
  VisualSystemConnector__init__ (λ _ n, S n) (λ n, n) mro_connector 7 0
    demo_retina demo_cortex ps demo_world.

Example demo_connector_log :
  log (demo_construct_connector [("weight", V_float (1#2))]).1
  = ["Creating DemoConnector between Retina and Cortex"].
Proof. vm_compute. reflexivity. Qed.

(** The connector as constructed has no [projections]: [describe]
    raises. *)
Example demo_describe_unassigned :
  (demo_construct_connector [("weight", V_float (1#2))]).2
    ≫= (λ c, describe (λ _ : unit, Return "") mro_connector c
               (Some "default") (λ _ _, Return "text"))
  = Raise AttributeError.
Proof. vm_compute. reflexivity. Qed.

Lemma rejected_connector_is_not_registered_witness :
  (demo_construct_connector [("weight", V_str "heavy")]).2 = Raise Exception ∧
  networks (demo_construct_connector [("weight", V_str "heavy")]).1 0%nat
    = 0%nat.
Proof.
  destruct (rejected_connector_is_not_registered (Projection := unit)
              (λ _ n, S n) (λ n, n) mro_connector 7 0 demo_retina demo_cortex
              [("weight", V_str "heavy")] demo_world Exception)
    as (Hr & Hn & _).
  - vm_compute. reflexivity.
  - split; [exact Hr|]. unfold demo_construct_connector. by rewrite Hn.
Defined.

Lemma accepted_connector_is_wired_witness :
  ∃ w' c,
    demo_construct_connector [("weight", V_float (1#2))] = (w', Return c) ∧
    networks w' 0%nat = 1%nat ∧ inputs w' 2%nat = Some 7%nat.
Proof.
  destruct (accepted_connector_is_wired (Projection := unit)
              (λ _ n, S n) (λ n, n) mro_connector 7 0 demo_retina demo_cortex
              [("weight", V_float (1#2))] demo_world)
    as (w' & c & Hinit & _ & _ & _ & _ & _ & Hreg & _ & Hin & _).
  - apply check_parameters_return. vm_compute. reflexivity.
  - exists w', c. by split_and!.
Defined.

Lemma describe_returns_context_only_without_template_witness :
  ∃ ps, projections
          {| parameters := []; network := 0; sim := 0%nat;
             source := demo_retina; target := demo_cortex;
             input := demo_retina; projections := Some [tt] |} = Some ps.
Proof.
  apply (describe_returns_context_only_without_template
           (λ _ : unit, Return "prj") mro_connector
           {| parameters := []; network := 0; sim := 0%nat;
              source := demo_retina; target := demo_cortex;
              input := demo_retina; projections := Some [tt] |}
           (Some "default") (λ _ _, Return "rendered text") None).
  vm_compute. reflexivity.
Defined.

End Components.

(** ** [VisualStimulus]: the frame stream ([framework/interfaces.py]) *)
Module Stimulus.

(** A frame [(img, variables)]: the pixels of the numpy array [img], row
    after row, and the variable values of the frame. *)
Definition image : Type := list Q.
Definition frame : Type := (image * list Q)%type.

(** [img.min()] and [img.max()]; numpy raises [ValueError] on an array
    without elements ([None]). *)
Definition img_min (im : image) : option Q :=
  match im with
  | [] => None
  | p :: ps => Some (foldl (λ m q, if Qle_bool m q then m else q) p ps)
  end.

Definition img_max (im : image) : option Q :=
  match im with
  | [] => None
  | p :: ps => Some (foldl (λ m q, if Qle_bool q m then m else q) p ps)
  end.

(** The constructor arguments, as kept in [self.parameters]. *)
Record StimulusParameters : Type := {
  p_frame_duration : Q;
  p_size_in_degrees : Q * Q;
  p_max_luminance : Q;
  p_location : Q * Q
}.

(** A generator object: suspended in state [g] of its body, or finished. *)
Inductive generator (G : Type) : Type :=
| Suspended (g : G)
| Finished.
Arguments Suspended {G} g.
Arguments Finished {G}.

(** The attributes of a [VisualStimulus].  For [visible], [_frames], [img]
    and [variables], [None] is an attribute that has not been assigned;
    [input = None] is Python's [None]. *)
Record VisualStimulus (G : Type) : Type := {
  location : Q * Q;
  size_in_degrees : Q * Q;
  visible : option bool;
  _zoom_cache : list (Q * image);
  frame_duration : Q;
  max_luminance : Q;
  parameters : StimulusParameters;
  input : option string;
  _frames : option (generator G);
  img : option image;
  variables : option (list Q)
}.
Arguments location {G} _.
Arguments size_in_degrees {G} _.
Arguments visible {G} _.
Arguments _zoom_cache {G} _.
Arguments frame_duration {G} _.
Arguments max_luminance {G} _.
Arguments parameters {G} _.
Arguments input {G} _.
Arguments _frames {G} _.
Arguments img {G} _.
Arguments variables {G} _.

Section VisualStimulus.

(** The concrete stimulus class: the states of the body of its [frames]
    generator, one step of that body up to the next [yield] ([None] when
    the body returns), and the generator [self.frames()] creates. *)
Context {G : Type}.
Variable resume : G → option (frame * G).
Variable frames : VisualStimulus G → G.

(** From the [space] module, which is not part of these sources: the
    constant [TRANSPARENT] and the object [VisualObject.__init__] leaves
    (its attributes are left open; [VisualStimulus.__init__] then assigns
    its own). *)
Variable TRANSPARENT : Q.
Variable VisualObject__init__ : Q * Q → Q * Q → VisualStimulus G.

Abbreviation self_t := (VisualStimulus G).

(** Attribute assignments. *)
Definition set_visible (b : bool) (s : self_t) : self_t :=
  {| location := location s; size_in_degrees := size_in_degrees s;
     visible := Some b; _zoom_cache := _zoom_cache s;
     frame_duration := frame_duration s; max_luminance := max_luminance s;
     parameters := parameters s; input := input s; _frames := _frames s;
     img := img s; variables := variables s |}.

Definition set_zoom_cache (c : list (Q * image)) (s : self_t) : self_t :=
  {| location := location s; size_in_degrees := size_in_degrees s;
     visible := visible s; _zoom_cache := c;
     frame_duration := frame_duration s; max_luminance := max_luminance s;
     parameters := parameters s; input := input s; _frames := _frames s;
     img := img s; variables := variables s |}.

Definition set_frames (gen : generator G) (s : self_t) : self_t :=
  {| location := location s; size_in_degrees := size_in_degrees s;
     visible := visible s; _zoom_cache := _zoom_cache s;
     frame_duration := frame_duration s; max_luminance := max_luminance s;
     parameters := parameters s; input := input s; _frames := Some gen;
     img := img s; variables := variables s |}.

Definition set_frame (f : frame) (s : self_t) : self_t :=
  {| location := location s; size_in_degrees := size_in_degrees s;
     visible := visible s; _zoom_cache := _zoom_cache s;
     frame_duration := frame_duration s; max_luminance := max_luminance s;
     parameters := parameters s; input := input s; _frames := _frames s;
     img := Some f.1; variables := Some f.2 |}.

Definition set_arguments (p : StimulusParameters) (s : self_t) : self_t :=
  {| location := location s; size_in_degrees := size_in_degrees s;
     visible := visible s; _zoom_cache := _zoom_cache s;
     frame_duration := p_frame_duration p;
     max_luminance := p_max_luminance p;
     parameters := p; input := None; _frames := _frames s;
     img := img s; variables := variables s |}.

(** [gen.next()]: the generator afterwards and the frame it yields, [None]
    for [StopIteration]. *)
Definition next (gen : generator G) : generator G * option frame :=
  match gen with
  | Suspended g =>
      match resume g with
      | Some (f, g') => (Suspended g', Some f)
      | None => (Finished, None)
      end
  | Finished => (Finished, None)
  end.

(** A method: the object afterwards, and what the call returned or
    raised. *)
Definition method (A : Type) : Type := self_t → self_t * result A.

Definition and_then {A B} (m : method A) (k : A → method B) : method B :=
  λ s, match m s with
       | (s', Return a) => k a s'
       | (s', Raise e) => (s', Raise e)
       end.

Definition assign (f : self_t → self_t) : method unit := λ s, (f s, Return ()).

(** The two assertions of [update] on the frame just stored. *)
Definition check_luminance (im : image) (max_lum : Q) : result unit :=
  match img_min im with
  | None => Raise ValueError
  | Some lo =>
      if Qle_bool 0 lo || Qeq_bool lo TRANSPARENT then
        match img_max im with
        | None => Raise ValueError
        | Some hi =>
            if Qle_bool hi max_lum then Return () else Raise AssertionError
        end
      else Raise AssertionError
  end.

Definition update : method unit := λ self,
  match _frames self with
  | None => (self, Raise AttributeError)
  | Some gen =>
      match next gen with
      | (gen', None) =>
          (set_zoom_cache [] (set_visible false (set_frames gen' self)),
           Return ())
      | (gen', Some f) =>
          let self := set_frame f (set_frames gen' self) in
          match check_luminance f.1 (max_luminance self) with
          | Return _ => (set_zoom_cache [] self, Return ())
          | Raise e => (self, Raise e)
          end
      end
  end.

Definition reset : method unit :=
  and_then (assign (set_visible true)) (λ _,
  and_then (assign (λ self, set_frames (Suspended (frames self)) self)) (λ _,
  update)).

Definition next_frame : method (list image) :=
  and_then update (λ _ self,
    match img self with
    | Some im => (self, Return [im])
    | None => (self, Raise AttributeError)
    end).

(** The object when [__init__] reaches [self._frames = self.frames()]. *)
Definition before_frames (p : StimulusParameters) : self_t :=
  set_arguments p (VisualObject__init__ (p_location p) (p_size_in_degrees p)).

Definition __init__ (frame_duration : Q) (size_in_degrees location : Q * Q)
    (max_luminance : Q) : self_t * result unit :=
  let p := {| p_frame_duration := frame_duration;
              p_size_in_degrees := size_in_degrees;
              p_max_luminance := max_luminance;
              p_location := location |} in
  and_then (assign (λ self, set_frames (Suspended (frames self)) self))
           (λ _, update) (before_frames p).

(** [n] calls of [update] in a row, stopping at the first that raises. *)
Fixpoint updates (n : nat) : method unit :=
  match n with
  | O => λ self, (self, Return ())
  | S n' => and_then update (λ _, updates n')
  end.

(** *** The sequence a generator yields *)

(** The generator after [n] calls of [next]. *)
Fixpoint advance (n : nat) (gen : generator G) : generator G :=
  match n with
  | O => gen
  | S n' => advance n' (next gen).1
  end.

(** The frame the call number [n] (from 0) of [next] yields. *)
Definition nth_frame (gen : generator G) (n : nat) : option frame :=
  (next (advance n gen)).2.

(** The luminance range of the specification. *)
Definition in_luminance_range (max_lum : Q) (im : image) : Prop :=
  ∃ lo hi, img_min im = Some lo ∧ img_max im = Some hi ∧
           (0 <= lo ∨ lo == TRANSPARENT)%Q ∧ (hi <= max_lum)%Q.

(** Construction followed by [n] calls of [update]. *)
Definition construct_and_update (n : nat) (frame_duration : Q)
    (size_in_degrees location : Q * Q) (max_luminance : Q)
    : self_t * result unit :=
  match __init__ frame_duration size_in_degrees location max_luminance with
  | (self, Return _) => updates n self
  | (self, Raise e) => (self, Raise e)
  end.

(** The generator [__init__] starts. *)
Definition first_generator (frame_duration : Q)
    (size_in_degrees location : Q * Q) (max_luminance : Q) : generator G :=
  Suspended (frames (before_frames
    {| p_frame_duration := frame_duration;
       p_size_in_degrees := size_in_degrees;
       p_max_luminance := max_luminance;
       p_location := location |})).

(** The object when [__init__] reaches its call of [update]. *)
Definition before_update (frame_duration : Q)
    (size_in_degrees location : Q * Q) (max_luminance : Q) : self_t :=
  set_frames
    (first_generator frame_duration size_in_degrees location max_luminance)
    (before_frames
       {| p_frame_duration := frame_duration;
          p_size_in_degrees := size_in_degrees;
          p_max_luminance := max_luminance;
          p_location := location |}).

(** The states a constructed stimulus goes through under its methods,
    whether or not a call raised. *)
Inductive reachable (s0 : self_t) : self_t → Prop :=
| reachable_start : reachable s0 s0
| reachable_update s : reachable s0 s → reachable s0 (update s).1
| reachable_reset s : reachable s0 s → reachable s0 (reset s).1
| reachable_next_frame s : reachable s0 s → reachable s0 (next_frame s).1.

(** The attributes no method of [VisualStimulus] assigns after
    construction. *)
Definition same_setup (s s' : self_t) : Prop :=
  location s' = location s ∧ size_in_degrees s' = size_in_degrees s ∧
  frame_duration s' = frame_duration s ∧ max_luminance s' = max_luminance s ∧
  parameters s' = parameters s ∧ input s' = input s.

(** What the frames to come depend on, and what the stimulus exposes. *)
Definition same_stream (s s' : self_t) : Prop :=
  _frames s' = _frames s ∧ max_luminance s' = max_luminance s ∧
  img s' = img s ∧ variables s' = variables s.

(** *** Validation of a frame *)

Lemma img_min_is_Some im : im ≠ [] → is_Some (img_min im).
Proof. destruct im; [done | by eexists]. Qed.

Lemma img_max_is_Some im : im ≠ [] → is_Some (img_max im).
Proof. destruct im; [done | by eexists]. Qed.

Lemma check_luminance_return im m :
  check_luminance im m = Return () ↔ in_luminance_range m im.
Proof.
  unfold check_luminance, in_luminance_range.
  destruct (img_min im) as [lo|]; [|split; [done | by intros (? & ? & [=] & _)]].
  destruct (Qle_bool 0 lo || Qeq_bool lo TRANSPARENT) eqn:Hlo.
  - apply orb_true_iff in Hlo. rewrite Qle_bool_iff, Qeq_bool_iff in Hlo.
    destruct (img_max im) as [hi|];
      [|split; [done | by intros (? & ? & _ & [=] & _)]].
    destruct (Qle_bool hi m) eqn:Hhi.
    + apply Qle_bool_iff in Hhi. split; [|done]. intros _. by exists lo, hi.
    + split; [done|]. intros (lo' & hi' & [= <-] & [= <-] & _ & Hle).
      apply Qle_bool_iff in Hle. congruence.
  - split; [done|]. intros (lo' & hi' & [= <-] & _ & Hor & _).
    rewrite <- Qle_bool_iff, <- Qeq_bool_iff, <- orb_true_iff in Hor. congruence.
Qed.

Lemma check_luminance_raise im m :
  im ≠ [] → ¬ in_luminance_range m im →
  check_luminance im m = Raise AssertionError.
Proof.
  intros Hne Hout. destruct (check_luminance im m) as [[]|e] eqn:Hc.
  - destruct Hout. by apply check_luminance_return.
  - unfold check_luminance in Hc.
    destruct (img_min_is_Some im Hne) as [lo Hlo].
    destruct (img_max_is_Some im Hne) as [hi Hhi].
    rewrite Hlo, Hhi in Hc.
    destruct (Qle_bool 0 lo || Qeq_bool lo TRANSPARENT); [|done].
    destruct (Qle_bool hi m); done.
Qed.

Lemma update_yields self gen gen' f :
  _frames self = Some gen → next gen = (gen', Some f) →
  update self =
    match check_luminance f.1 (max_luminance self) with
    | Return _ =>
        (set_zoom_cache [] (set_frame f (set_frames gen' self)), Return ())
    | Raise e => (set_frame f (set_frames gen' self), Raise e)
    end.
Proof. intros Hg Hn. unfold update. rewrite Hg, Hn. done. Qed.

Lemma update_stops self gen gen' :
  _frames self = Some gen → next gen = (gen', None) →
  update self =
    (set_zoom_cache [] (set_visible false (set_frames gen' self)), Return ()).
Proof. intros Hg Hn. unfold update. by rewrite Hg, Hn. Qed.

Lemma init_is_update fd sz loc ml :
  __init__ fd sz loc ml = update (before_update fd sz loc ml).
Proof. reflexivity. Qed.

(** C2. A frame that [update] takes from the generator is checked against
    the luminance range: the call returns normally exactly when the
    minimum of [img] is at least 0 or equal to [TRANSPARENT] and its
    maximum is at most [max_luminance]; a frame outside the range raises
    [AssertionError].  The constructor checks the first frame the same
    way. *)
Theorem update_checks_luminance_range (self : self_t) gen gen' im vars :
  _frames self = Some gen → next gen = (gen', Some (im, vars)) →
  ((update self).2 = Return () ↔ in_luminance_range (max_luminance self) im) ∧
  (im ≠ [] → ¬ in_luminance_range (max_luminance self) im →
   (update self).2 = Raise AssertionError) ∧
  (∀ fd sz loc ml gen1 im0 vars0,
     next (first_generator fd sz loc ml) = (gen1, Some (im0, vars0)) →
     ((__init__ fd sz loc ml).2 = Return () ↔ in_luminance_range ml im0) ∧
     (im0 ≠ [] → ¬ in_luminance_range ml im0 →
      (__init__ fd sz loc ml).2 = Raise AssertionError)).
Proof.
  assert (Hupd : ∀ (s : self_t) g g' i v,
    _frames s = Some g → next g = (g', Some (i, v)) →
    ((update s).2 = Return () ↔ in_luminance_range (max_luminance s) i) ∧
    (i ≠ [] → ¬ in_luminance_range (max_luminance s) i →
     (update s).2 = Raise AssertionError)).
  { intros s g g' i v Hg Hn. rewrite (update_yields _ _ _ _ Hg Hn). simpl.
    split.
    - rewrite <- check_luminance_return.
      destruct (check_luminance i (max_luminance s)) as [[]|e]; done.
    - intros Hne Hout. by rewrite (check_luminance_raise _ _ Hne Hout). }
  intros Hg Hn. destruct (Hupd _ _ _ _ _ Hg Hn) as [H1 H2].
  split_and!; [done | done |].
  intros fd sz loc ml gen1 im0 vars0 Hfirst. rewrite init_is_update.
  exact (Hupd (before_update fd sz loc ml) _ gen1 im0 vars0 eq_refl Hfirst).
Qed.

(** *** Running the stream *)

Lemma same_setup_refl s : same_setup s s.
Proof. by repeat split. Qed.

Lemma same_setup_trans s1 s2 s3 :
  same_setup s1 s2 → same_setup s2 s3 → same_setup s1 s3.
Proof.
  unfold same_setup. intros (?&?&?&?&?&?) (?&?&?&?&?&?).
  split_and!; congruence.
Qed.

Lemma update_same_setup s : same_setup s (update s).1.
Proof.
  unfold update. destruct (_frames s) as [gen|]; [|apply same_setup_refl].
  destruct (next gen) as [gen' [f|]]; [|by repeat split].
  simpl. destruct (check_luminance _ _); by repeat split.
Qed.

Lemma next_None gen : (next gen).2 = None → (next gen).1 = Finished.
Proof.
  destruct gen as [g|]; simpl; [|done].
  destruct (resume g) as [[f g']|]; done.
Qed.

Lemma next_eq gen : next gen = ((next gen).1, (next gen).2).
Proof. by destruct (next gen). Qed.

Lemma advance_S_r n gen : advance (S n) gen = (next (advance n gen)).1.
Proof. revert gen. induction n as [|n IH]; intros gen; [done|]. apply IH. Qed.

Lemma updates_S_r n s : updates (S n) s = and_then (updates n) (λ _, update) s.
Proof.
  revert s. induction n as [|n IH]; intros s.
  - simpl. unfold and_then. by destruct (update s) as [s' [[]|e]].
  - specialize (IH (update s).1). cbn [updates] in *. unfold and_then in *.
    destruct (update s) as [s1 [[]|e]]; [|done]. apply IH.
Qed.

Lemma updates_add a b s :
  updates (a + b) s = and_then (updates a) (λ _, updates b) s.
Proof.
  revert s. induction a as [|a IH]; intros s; [done|].
  simpl. unfold and_then in *. destruct (update s) as [s1 [[]|e]]; [|done].
  apply IH.
Qed.

(** As long as the generator yields frames in range, [n] updates return
    normally, have resumed the generator [n] times, and expose the last
    frame taken. *)
Lemma updates_run n : ∀ (s : self_t) gen,
  _frames s = Some gen →
  (∀ i, (i < n)%nat → ∃ f, nth_frame gen i = Some f ∧
                     in_luminance_range (max_luminance s) f.1) →
  ∃ s', updates n s = (s', Return ()) ∧
        _frames s' = Some (advance n gen) ∧
        same_setup s s' ∧ visible s' = visible s ∧
        (∀ m f, n = S m → nth_frame gen m = Some f →
                img s' = Some f.1 ∧ variables s' = Some f.2).
Proof.
  induction n as [|n IH]; intros s gen Hg Hfr.
  - exists s. split_and!; done || apply same_setup_refl.
  - destruct (IH s gen Hg) as (s1 & Hrun & Hg1 & Hsetup & Hvis & _).
    { intros i Hi. apply Hfr. lia. }
    destruct (Hfr n) as (f & Hf & Hrange); [lia|].
    rewrite updates_S_r. unfold and_then. rewrite Hrun.
    assert (Hnext : next (advance n gen) = (advance (S n) gen, Some f)).
    { rewrite advance_S_r, (next_eq (advance n gen)). by f_equal. }
    rewrite (update_yields _ _ _ _ Hg1 Hnext).
    destruct Hsetup as (?&?&?&Hml&?&?). rewrite Hml.
    rewrite (proj2 (check_luminance_return _ _) Hrange).
    eexists. split_and!; try done.
    intros m f' [= <-] Hf'. rewrite Hf in Hf'. by injection Hf' as <-.
Qed.

(** Once the generator is exhausted, updates return normally and keep
    [img] and [variables]. *)
Lemma updates_exhausted b : ∀ (s : self_t) gen,
  _frames s = Some gen → (next gen).2 = None →
  ∃ s', updates b s = (s', Return ()) ∧
        img s' = img s ∧ variables s' = variables s ∧ same_setup s s' ∧
        ((0 < b)%nat → visible s' = Some false ∧ _zoom_cache s' = [] ∧
                 _frames s' = Some Finished).
Proof.
  induction b as [|b IH]; intros s gen Hg Hn.
  - exists s. split_and!; first [done | apply same_setup_refl | lia].
  - simpl. unfold and_then.
    assert (Hnext : next gen = (Finished, None)).
    { rewrite (next_eq gen), Hn. by rewrite (next_None _ Hn). }
    rewrite (update_stops _ _ _ Hg Hnext).
    destruct (IH (set_zoom_cache [] (set_visible false (set_frames Finished s)))
                Finished eq_refl eq_refl)
      as (s' & Hrun & Himg & Hvars & Hsetup & Hpos).
    exists s'. split_and!; try done.
    intros _. destruct b as [|b].
    + by injection Hrun as <-.
    + apply Hpos. lia.
Qed.

Lemma construct_and_update_updates n fd sz loc ml :
  construct_and_update n fd sz loc ml =
    updates (S n) (before_update fd sz loc ml).
Proof.
  unfold construct_and_update. rewrite init_is_update. simpl.
  unfold and_then. by destruct (update _) as [s [[]|e]].
Qed.

(** C6. The constructor takes exactly the first frame of the generator and
    every [update] exactly one more: while the frames are in range,
    construction followed by [n] updates returns normally, the generator
    has been resumed [n + 1] times and no more, and [(img, variables)] is
    frame number [n + 1] of the stream.  [next_frame] is one [update]
    followed by reading [img]. *)
Theorem frames_are_taken_one_at_a_time n fd sz loc ml :
  (∀ i, (i ≤ n)%nat → ∃ f, nth_frame (first_generator fd sz loc ml) i = Some f ∧
                    in_luminance_range ml f.1) →
  (∃ self f,
     construct_and_update n fd sz loc ml = (self, Return ()) ∧
     _frames self = Some (advance (S n) (first_generator fd sz loc ml)) ∧
     nth_frame (first_generator fd sz loc ml) n = Some f ∧
     img self = Some f.1 ∧ variables self = Some f.2) ∧
  (∀ self : self_t,
     (next_frame self).1 = (update self).1 ∧
     ((next_frame self).2 =
        match (update self).2, img (update self).1 with
        | Return _, Some im => Return [im]
        | Return _, None => Raise AttributeError
        | Raise e, _ => Raise e
        end)).
Proof.
  intros Hfr. split.
  - rewrite construct_and_update_updates.
    destruct (updates_run (S n) (before_update fd sz loc ml) _ eq_refl)
      as (s' & Hrun & Hg & _ & _ & Himg).
    { intros i Hi. apply Hfr. lia. }
    destruct (Hfr n) as (f & Hf & _); [lia|].
    exists s', f. destruct (Himg n f eq_refl Hf). by split_and!.
  - intros self. unfold next_frame, and_then.
    destruct (update self) as [s [[]|e]]; simpl; [|done].
    by destruct (img s).
Qed.

(** C9. When the generator is exhausted [update] returns normally: it sets
    [visible] to [False], empties the zoom cache and assigns nothing else,
    so [img] and [variables] stay as they were and the generator stays
    finished.  After a stream of [m >= 1] frames has run out, they are the
    last frame that was yielded. *)
Theorem update_on_exhausted_generator (self : self_t) gen :
  _frames self = Some gen → (next gen).2 = None →
  update self =
    ({| location := location self; size_in_degrees := size_in_degrees self;
        visible := Some false; _zoom_cache := [];
        frame_duration := frame_duration self;
        max_luminance := max_luminance self;
        parameters := parameters self; input := input self;
        _frames := Some Finished;
        img := img self; variables := variables self |}, Return ()) ∧
  next Finished = (Finished, None) ∧
  (∀ fd sz loc ml m n f,
     (∀ i, (i ≤ m)%nat → ∃ f, nth_frame (first_generator fd sz loc ml) i = Some f ∧
                       in_luminance_range ml f.1) →
     nth_frame (first_generator fd sz loc ml) m = Some f →
     nth_frame (first_generator fd sz loc ml) (S m) = None →
     (m < n)%nat →
     ∃ s, construct_and_update n fd sz loc ml = (s, Return ()) ∧
          visible s = Some false ∧ img s = Some f.1 ∧ variables s = Some f.2).
Proof.
  intros Hg Hn. split_and!.
  - assert (Hnext : next gen = (Finished, None)).
    { rewrite (next_eq gen), Hn. by rewrite (next_None _ Hn). }
    by rewrite (update_stops _ _ _ Hg Hnext).
  - done.
  - clear. intros fd sz loc ml m n f Hfr Hf Hend Hmn.
    rewrite construct_and_update_updates.
    replace (S n) with (S m + (n - m))%nat by lia.
    rewrite updates_add. unfold and_then.
    destruct (updates_run (S m) (before_update fd sz loc ml) _ eq_refl)
      as (s1 & Hrun & Hg1 & _ & _ & Himg).
    { intros i Hi. apply Hfr. lia. }
    rewrite Hrun. destruct (Himg m f eq_refl Hf) as [Hi Hv].
    destruct (updates_exhausted (n - m) s1 _ Hg1 Hend)
      as (s2 & Hrun2 & Hi2 & Hv2 & _ & Hpos).
    exists s2. rewrite Hrun2. split_and!; [done | | congruence | congruence].
    apply Hpos. lia.
Qed.

(** *** Restarting the stream *)

Lemma update_same_stream s s' :
  same_stream s s' →
  (update s').2 = (update s).2 ∧ same_stream (update s).1 (update s').1.
Proof.
  intros (Hg & Hml & Hi & Hv). unfold update, same_stream. rewrite Hg.
  destruct (_frames s) as [gen|] eqn:Hgen;
    [|simpl; split_and!; congruence].
  destruct (next gen) as [gen' [f|]]; [|simpl; split_and!; congruence].
  simpl. rewrite Hml.
  destruct (check_luminance _ _); simpl; split_and!; congruence.
Qed.

Lemma updates_same_stream n : ∀ s s',
  same_stream s s' →
  (updates n s').2 = (updates n s).2 ∧
  same_stream (updates n s).1 (updates n s').1.
Proof.
  induction n as [|n IH]; intros s s' Hs; [done|].
  simpl. unfold and_then.
  destruct (update_same_stream s s' Hs) as [Hr Hs1].
  destruct (update s) as [s1 r1], (update s') as [s1' r1']. simpl in *.
  subst r1'. destruct r1 as [[]|e]; [by apply IH | done].
Qed.

Lemma reset_is_update s :
  reset s =
    update (set_frames (Suspended (frames (set_visible true s)))
              (set_visible true s)).
Proof. reflexivity. Qed.

Lemma next_frame_state s : (next_frame s).1 = (update s).1.
Proof.
  unfold next_frame, and_then. destruct (update s) as [s1 [[]|e]]; [|done].
  by destruct (img s1).
Qed.

Lemma reachable_same_setup s0 s : reachable s0 s → same_setup s0 s.
Proof.
  induction 1 as [|s _ IH|s _ IH|s _ IH].
  - apply same_setup_refl.
  - eapply same_setup_trans; [exact IH | apply update_same_setup].
  - eapply same_setup_trans; [exact IH|]. rewrite reset_is_update.
    eapply same_setup_trans; [|apply update_same_setup]. by repeat split.
  - rewrite next_frame_state.
    eapply same_setup_trans; [exact IH | apply update_same_setup].
Qed.

(** C4. For a stimulus whose [frames()] starts the same generator whenever
    it is called, [reset] brings a constructed stimulus, whatever it has
    been through, back to the start of the stream: it returns normally
    with [visible] true, a fresh generator that has yielded its first frame,
    and that frame as [(img, variables)], as after construction; the
    updates that follow give the same outcomes and frames as the updates
    after construction. *)
Theorem reset_restarts_the_stream fd sz loc ml (s0 s : self_t) (f0 : frame) :
  (∀ s1 s2 : self_t, parameters s1 = parameters s2 → frames s1 = frames s2) →
  __init__ fd sz loc ml = (s0, Return ()) →
  nth_frame (first_generator fd sz loc ml) 0 = Some f0 →
  reachable s0 s →
  ∃ s', reset s = (s', Return ()) ∧
        visible s' = Some true ∧
        _frames s' = Some (advance 1 (first_generator fd sz loc ml)) ∧
        _frames s0 = Some (advance 1 (first_generator fd sz loc ml)) ∧
        img s' = Some f0.1 ∧ variables s' = Some f0.2 ∧
        img s0 = Some f0.1 ∧ variables s0 = Some f0.2 ∧
        ∀ n, (updates n s').2 = (updates n s0).2 ∧
             same_stream (updates n s0).1 (updates n s').1.
Proof.
  intros Hdet Hinit Hf0 Hreach.
  assert (Hnext : next (first_generator fd sz loc ml) =
                  (advance 1 (first_generator fd sz loc ml), Some f0)).
  { rewrite (next_eq (first_generator fd sz loc ml)). by f_equal. }
  rewrite init_is_update in Hinit.
  rewrite (update_yields (before_update fd sz loc ml) _ _ _ eq_refl Hnext)
    in Hinit.
  simpl in Hinit.
  destruct (check_luminance f0.1 ml) as [[]|e] eqn:Hcheck; [|done].
  injection Hinit as <-.
  apply reachable_same_setup in Hreach as (_ & _ & _ & Hml & Hp & _).
  simpl in Hml, Hp.
  rewrite reset_is_update.
  assert (Hfresh : Suspended (frames (set_visible true s)) =
                   first_generator fd sz loc ml).
  { unfold first_generator. f_equal. apply Hdet. simpl. by rewrite Hp. }
  rewrite Hfresh.
  rewrite (update_yields
             (set_frames (first_generator fd sz loc ml) (set_visible true s))
             _ _ _ eq_refl Hnext).
  simpl.
  rewrite Hml, Hcheck.
  eexists. split; [reflexivity|]. split_and!; try done.
  intros n. apply updates_same_stream. by repeat split.
Qed.

(** *** What the luminance check means for the pixels *)

Lemma Qle_bool_false a b : Qle_bool a b = false → (b <= a)%Q.
Proof.
  intros H. apply Qlt_le_weak, Qnot_le_lt. intros Hle.
  apply Qle_bool_iff in Hle. congruence.
Qed.

Lemma foldl_min_spec ps : ∀ p,
  let m := foldl (λ m q, if Qle_bool m q then m else q) p ps in
  (m <= p)%Q ∧ Forall (λ q, m <= q)%Q ps ∧ m ∈ p :: ps.
Proof.
  induction ps as [|q ps IH]; intros p; simpl.
  - split_and!; [apply Qle_refl | constructor | left].
  - destruct (Qle_bool p q) eqn:Hpq.
    + destruct (IH p) as (Hp & Hps & Hin). apply Qle_bool_iff in Hpq.
      split_and!; [done | | ].
      * constructor; [by eapply Qle_trans | done].
      * apply elem_of_cons in Hin as [Heq|Hin];
          [rewrite Heq; left | by do 2 right].
    + destruct (IH q) as (Hq & Hps & Hin). apply Qle_bool_false in Hpq.
      split_and!; [by eapply Qle_trans | by constructor | by right].
Qed.

Lemma foldl_max_spec ps : ∀ p,
  let m := foldl (λ m q, if Qle_bool q m then m else q) p ps in
  (p <= m)%Q ∧ Forall (λ q, q <= m)%Q ps ∧ m ∈ p :: ps.
Proof.
  induction ps as [|q ps IH]; intros p; simpl.
  - split_and!; [apply Qle_refl | constructor | left].
  - destruct (Qle_bool q p) eqn:Hpq.
    + destruct (IH p) as (Hp & Hps & Hin). apply Qle_bool_iff in Hpq.
      split_and!; [done | | ].
      * constructor; [by eapply Qle_trans | done].
      * apply elem_of_cons in Hin as [Heq|Hin];
          [rewrite Heq; left | by do 2 right].
    + destruct (IH q) as (Hq & Hps & Hin). apply Qle_bool_false in Hpq.
      split_and!; [by eapply Qle_trans | by constructor | by right].
Qed.

Lemma img_min_spec im lo :
  img_min im = Some lo → Forall (λ q, lo <= q)%Q im ∧ lo ∈ im.
Proof.
  destruct im as [|p ps]; [done|]. intros [= <-].
  destruct (foldl_min_spec ps p) as (Hp & Hps & Hin).
  split; [by constructor | done].
Qed.

Lemma img_max_spec im hi :
  img_max im = Some hi → Forall (λ q, q <= hi)%Q im ∧ hi ∈ im.
Proof.
  destruct im as [|p ps]; [done|]. intros [= <-].
  destruct (foldl_max_spec ps p) as (Hp & Hps & Hin).
  split; [by constructor | done].
Qed.

(** The range of the two assertions, pixel by pixel: only the darkest
    pixel is compared with [TRANSPARENT]. *)
Definition pixels_in_range (max_lum : Q) (im : image) : Prop :=
  im ≠ [] ∧ Forall (λ p, p <= max_lum)%Q im ∧
  (Forall (λ p, 0 <= p)%Q im ∨
   (Exists (λ p, p == TRANSPARENT)%Q im ∧ Forall (λ p, TRANSPARENT <= p)%Q im)).

Lemma in_luminance_range_pixels max_lum im :
  in_luminance_range max_lum im ↔ pixels_in_range max_lum im.
Proof.
  unfold in_luminance_range, pixels_in_range. split.
  - intros (lo & hi & Hlo & Hhi & Hmin & Hmax).
    destruct (img_min_spec _ _ Hlo) as [Hall_lo Hin_lo].
    destruct (img_max_spec _ _ Hhi) as [Hall_hi _].
    split_and!.
    + by destruct im.
    + eapply Forall_impl; [exact Hall_hi|]. intros p Hp. simpl in Hp.
      by eapply Qle_trans.
    + destruct Hmin as [H0|HT]; [left | right].
      * eapply Forall_impl; [exact Hall_lo|]. intros p Hp. simpl in Hp.
        by eapply Qle_trans.
      * split.
        -- apply Exists_exists. by exists lo.
        -- eapply Forall_impl; [exact Hall_lo|]. intros p Hp. simpl in Hp.
           by rewrite <- HT.
  - intros (Hne & Hmax & Hmin).
    destruct (img_min_is_Some im Hne) as [lo Hlo].
    destruct (img_max_is_Some im Hne) as [hi Hhi].
    destruct (img_min_spec _ _ Hlo) as [Hall_lo Hin_lo].
    destruct (img_max_spec _ _ Hhi) as [_ Hin_hi].
    rewrite Forall_forall in Hmax. exists lo, hi. split_and!; try done.
    + destruct Hmin as [H0|[HT Hall]]; [left | right].
      * rewrite Forall_forall in H0. by apply H0.
      * apply Exists_exists in HT as (p & Hp & HpT).
        rewrite Forall_forall in Hall, Hall_lo. apply Qle_antisym.
        -- rewrite <- HpT. by apply Hall_lo.
        -- by apply Hall.
    + by apply Hmax.
Qed.

(** X1. [update] accepts a frame it takes from the generator exactly when
    the image has pixels, every pixel is at most [max_luminance], and
    either every pixel is at least 0 or the darkest pixel equals
    [TRANSPARENT].  Only the minimum is compared with [TRANSPARENT]: once
    one pixel is transparent, other pixels between [TRANSPARENT] and 0 pass
    too. *)
Theorem update_accepts_frame_pixelwise (self : self_t) gen gen' im vars :
  _frames self = Some gen → next gen = (gen', Some (im, vars)) →
  (update self).2 = Return () ↔ pixels_in_range (max_luminance self) im.
Proof.
  intros Hg Hn. rewrite (update_yields _ _ _ _ Hg Hn). simpl.
  rewrite <- in_luminance_range_pixels, <- check_luminance_return.
  by destruct (check_luminance im (max_luminance self)) as [[]|e].
Qed.

(** X2. A frame that fails the check has already replaced the current one:
    when [update] raises [AssertionError], [img] and [variables] are the
    offending frame, the generator has moved on, and the zoom cache and
    [visible] are as before the call. *)
Theorem update_keeps_rejected_frame (self : self_t) gen gen' (f : frame) :
  _frames self = Some gen → next gen = (gen', Some f) →
  f.1 ≠ [] → ¬ in_luminance_range (max_luminance self) f.1 →
  (update self).2 = Raise AssertionError ∧
  img (update self).1 = Some f.1 ∧ variables (update self).1 = Some f.2 ∧
  _frames (update self).1 = Some gen' ∧
  _zoom_cache (update self).1 = _zoom_cache self ∧
  visible (update self).1 = visible self.
Proof.
  intros Hg Hn Hne Hout. rewrite (update_yields _ _ _ _ Hg Hn).
  by rewrite (check_luminance_raise _ _ Hne Hout).
Qed.

(** *** Invariants of a constructed stimulus *)

Lemma update_Return_img (s s' : self_t) :
  update s = (s', Return ()) →
  max_luminance s' = max_luminance s ∧
  (img s' = img s ∨
   ∃ im, img s' = Some im ∧ in_luminance_range (max_luminance s) im).
Proof.
  unfold update. destruct (_frames s) as [gen|]; [|done].
  destruct (next gen) as [gen' [f|]].
  - simpl. destruct (check_luminance f.1 (max_luminance s)) as [[]|e] eqn:Hc;
      [|done].
    intros [= <-]. split; [done|]. right. exists f.1. split; [done|].
    by apply check_luminance_return.
  - intros [= <-]. split; [done | by left].
Qed.

Lemma updates_Return_img n : ∀ (s s' : self_t) m,
  max_luminance s = m →
  (∃ im, img s = Some im ∧ in_luminance_range m im) →
  updates n s = (s', Return ()) →
  max_luminance s' = m ∧ ∃ im, img s' = Some im ∧ in_luminance_range m im.
Proof.
  induction n as [|n IH]; intros s s' m Hm Himg; simpl.
  - by intros [= <-].
  - unfold and_then. destruct (update s) as [s1 [[]|e]] eqn:Hupd; [|done].
    apply update_Return_img in Hupd as [Hm1 Hcase]. apply IH.
    + congruence.
    + destruct Hcase as [Hsame|Hnew]; [by rewrite Hsame|]. by rewrite <- Hm.
Qed.

(** X3. A stimulus whose stream has a first frame never exposes a frame
    outside the luminance range: whenever construction and the updates
    after it all returned normally, [img] is a frame within the range. *)
Theorem constructed_stimulus_exposes_valid_frame n fd sz loc ml (s : self_t) f0 :
  nth_frame (first_generator fd sz loc ml) 0 = Some f0 →
  construct_and_update n fd sz loc ml = (s, Return ()) →
  max_luminance s = ml ∧
  ∃ im, img s = Some im ∧ in_luminance_range ml im.
Proof.
  intros Hf0. unfold construct_and_update. rewrite init_is_update.
  assert (Hnext : next (first_generator fd sz loc ml) =
                  (advance 1 (first_generator fd sz loc ml), Some f0)).
  { rewrite (next_eq (first_generator fd sz loc ml)). by f_equal. }
  rewrite (update_yields (before_update fd sz loc ml) _ _ _ eq_refl Hnext).
  simpl. destruct (check_luminance f0.1 ml) as [[]|e] eqn:Hc; [|done].
  apply updates_Return_img; [done|].
  exists f0.1. split; [done|]. by apply check_luminance_return.
Qed.

(** X4. The constructor arguments stay as given: in every state a stimulus
    goes through after [__init__] (whether or not calls raised),
    [frame_duration], [max_luminance] and [parameters] hold the constructor
    arguments, and [input] is still [None]. *)
Theorem constructor_arguments_are_kept fd sz loc ml (s0 s : self_t) r :
  __init__ fd sz loc ml = (s0, r) →
  reachable s0 s →
  frame_duration s = fd ∧ max_luminance s = ml ∧
  parameters s = {| p_frame_duration := fd; p_size_in_degrees := sz;
                    p_max_luminance := ml; p_location := loc |} ∧
  input s = None.
Proof.
  intros Hinit Hreach. rewrite init_is_update in Hinit.
  pose proof (update_same_setup (before_update fd sz loc ml)) as H0.
  rewrite Hinit in H0. simpl in H0.
  pose proof (same_setup_trans _ _ _ H0 (reachable_same_setup _ _ Hreach))
    as (_ & _ & Hfd & Hml & Hp & Hin).
  by split_and!.
Qed.

(** X5. An empty stream does not stop the constructor: when [frames()]
    yields nothing, [__init__] returns normally with [visible] false, an
    empty zoom cache, a finished generator, and [img] and [variables] as
    [VisualObject.__init__] left them. *)
Theorem constructor_on_empty_stream fd sz loc ml :
  nth_frame (first_generator fd sz loc ml) 0 = None →
  ∃ s, __init__ fd sz loc ml = (s, Return ()) ∧
       visible s = Some false ∧ _zoom_cache s = [] ∧
       _frames s = Some Finished ∧
       img s = img (VisualObject__init__ loc sz) ∧
       variables s = variables (VisualObject__init__ loc sz).
Proof.
  intros Hnone. rewrite init_is_update.
  change ((next (first_generator fd sz loc ml)).2 = None) in Hnone.
  assert (Hnext : next (first_generator fd sz loc ml) = (Finished, None)).
  { rewrite (next_eq (first_generator fd sz loc ml)).
    by rewrite (next_None _ Hnone), Hnone. }
  rewrite (update_stops (before_update fd sz loc ml) _ _ eq_refl Hnext).
  eexists. split; [reflexivity|]. done.
Qed.

(** X6. Once the stream has run out, [next_frame] keeps returning the last
    frame: it returns [[img]] with the image unchanged, leaves [visible]
    false and the generator finished, so the next call does the same. *)
Theorem next_frame_repeats_last_frame (self : self_t) gen im :
  _frames self = Some gen → (next gen).2 = None → img self = Some im →
  ∃ s', next_frame self = (s', Return [im]) ∧
        img s' = Some im ∧ variables s' = variables self ∧
        visible s' = Some false ∧
        _frames s' = Some Finished ∧ (next Finished).2 = None.
Proof.
  intros Hg Hn Himg. unfold next_frame, and_then.
  assert (Hnext : next gen = (Finished, None)).
  { rewrite (next_eq gen), Hn. by rewrite (next_None _ Hn). }
  rewrite (update_stops _ _ _ Hg Hnext). simpl. rewrite Himg.
  eexists. split; [reflexivity|]. done.
Qed.

(** X7. [reset] is idempotent when [frames()] depends on the stimulus
    parameters only: a second [reset] right after the first returns or
    raises the same and leaves the same object. *)
Theorem reset_twice_is_reset_once (self : self_t) :
  (∀ s1 s2 : self_t, parameters s1 = parameters s2 → frames s1 = frames s2) →
  reset (reset self).1 = reset self.
Proof.
  intros Hdet. rewrite !reset_is_update.
  set (s1 := set_frames (Suspended (frames (set_visible true self)))
               (set_visible true self)).
  pose proof (update_same_setup s1) as (_ & _ & _ & Hml & Hp & _).
  assert (Hfresh : frames (set_visible true (update s1).1) =
                   frames (set_visible true self)) by by apply Hdet.
  rewrite Hfresh. clear Hfresh Hml Hp.
  destruct (next (Suspended (frames (set_visible true self))))
    as [gen' [f|]] eqn:Hnext.
  - assert (Hu := update_yields s1 _ _ _ eq_refl Hnext).
    destruct (check_luminance f.1 (max_luminance s1)) as [[]|e] eqn:Hc;
      rewrite Hu; simpl;
      (erewrite update_yields; [|reflexivity|exact Hnext]);
      simpl; simpl in Hc; by rewrite Hc.
  - assert (Hu := update_stops s1 _ _ eq_refl Hnext). rewrite Hu. simpl.
    by (erewrite update_stops; [|reflexivity|exact Hnext]).
Qed.

End VisualStimulus.

(** *** A two-frame stimulus to run the definitions on *)

(** A generator body that yields the frames of a list, then returns. *)
Definition list_resume (g : list frame) : option (frame * list frame) :=
  match g with
  | [] => None
  | f :: g' => Some (f, g')
  end.

(** Two frames scaled by the maximal luminance; the second one has a
    transparent pixel. *)
Definition two_frames (self : VisualStimulus (list frame)) : list frame :=
  let m := p_max_luminance (parameters self) in
  [([0; m], [0]); ([-1; m * (1#2)], [1#2])]%Q.

Definition demo_TRANSPARENT : Q := (-1)%Q.

Definition demo_VisualObject__init__ (location size_in_degrees : Q * Q)
    : VisualStimulus (list frame) :=
  {| location := location; size_in_degrees := size_in_degrees;
     visible := Some true; _zoom_cache := [];
     frame_duration := 0; max_luminance := 0;
     parameters := {| p_frame_duration := 0; p_size_in_degrees := (0, 0)%Q;
                      p_max_luminance := 0; p_location := (0, 0)%Q |};
     input := None; _frames := None; img := None; variables := None |}.

Definition demo_construct (n : nat) : VisualStimulus (list frame) * result unit :=
  construct_and_update list_resume two_frames demo_TRANSPARENT
    demo_VisualObject__init__ n (1#50) (2, 2)%Q (0, 0)%Q 100.

(** The demo stimulus after construction and after two more updates. *)
Definition demo_s0 : VisualStimulus (list frame) := (demo_construct 0).1.
Definition demo_s2 : VisualStimulus (list frame) :=
  (update list_resume demo_TRANSPARENT
     (update list_resume demo_TRANSPARENT demo_s0).1).1.

Example demo_first_frame :
  img (demo_construct 0).1 = Some [0; 100]%Q ∧
  (demo_construct 0).2 = Return ().
Proof. vm_compute. done. Qed.

Example demo_second_frame :
  img (demo_construct 1).1 = Some [-1; 100 * (1#2)]%Q ∧
  visible (demo_construct 1).1 = Some true.
Proof. vm_compute. done. Qed.

Example demo_exhausted :
  img (demo_construct 2).1 = Some [-1; 100 * (1#2)]%Q ∧
  visible (demo_construct 2).1 = Some false ∧
  (demo_construct 2).2 = Return ().
Proof. vm_compute. done. Qed.

(** A frame brighter than [max_luminance] stops the constructor. *)
Example demo_too_bright :
  (__init__ list_resume (λ _, [([0; 101], [])%Q]) demo_TRANSPARENT
     demo_VisualObject__init__ (1#50) (2, 2)%Q (0, 0)%Q 100).2
  = Raise AssertionError.
Proof. vm_compute. done. Qed.

(** A generator that never finishes: frame [n] is one pixel of luminance
    [n]; only the frames asked for are produced. *)
Definition ramp_resume (n : nat) : option (frame * nat) :=
  Some (([inject_Z (Z.of_nat n)], []), S n).

Example ramp_fifth_frame :
  nth_frame ramp_resume (Suspended 0%nat) 4 = Some ([4%Q], []) ∧
  advance ramp_resume 5 (Suspended 0%nat) = Suspended 5%nat.
Proof. vm_compute. done. Qed.

Lemma demo_frames_in_range i :
  (i ≤ 1)%nat →
  ∃ f, nth_frame list_resume
         (first_generator two_frames demo_VisualObject__init__
            (1#50) (2, 2)%Q (0, 0)%Q 100) i = Some f ∧
       in_luminance_range demo_TRANSPARENT 100 f.1.
Proof.
  intros Hi. destruct i as [|[|i]]; [| |lia].
  - eexists. split; [reflexivity|]. exists 0%Q, 100%Q.
    split_and!; [done | done | by left | done].
  - eexists. split; [reflexivity|]. exists (-1)%Q, (100 * (1#2))%Q.
    split_and!; [done | done | by right | done].
Defined.

Lemma update_checks_luminance_range_witness :
  (update list_resume demo_TRANSPARENT (demo_construct 0).1).2 = Return ().
Proof.
  apply (update_checks_luminance_range list_resume two_frames
           demo_TRANSPARENT demo_VisualObject__init__
           (demo_construct 0).1
           (Suspended [([-1; 100 * (1#2)], [1#2])%Q]) (Suspended [])
           [-1; 100 * (1#2)]%Q [1#2]%Q).
  - reflexivity.
  - reflexivity.
  - exists (-1)%Q, (100 * (1#2))%Q.
    split_and!; [done | done | by right | done].
Defined.

Lemma frames_are_taken_one_at_a_time_witness :
  ∃ self f,
    demo_construct 1 = (self, Return ()) ∧
    _frames self = Some (Suspended []) ∧
    f = ([-1; 100 * (1#2)], [1#2])%Q ∧
    img self = Some f.1 ∧ variables self = Some f.2.
Proof.
  destruct (proj1 (frames_are_taken_one_at_a_time list_resume two_frames
              demo_TRANSPARENT demo_VisualObject__init__
              1 (1#50) (2, 2)%Q (0, 0)%Q 100 demo_frames_in_range))
    as (self & f & Hrun & Hg & Hf & Hi & Hv).
  exists self, f. split_and!; try done. by injection Hf as <-.
Defined.

Lemma update_on_exhausted_generator_witness :
  (update list_resume demo_TRANSPARENT (demo_construct 1).1).2 = Return () ∧
  img (update list_resume demo_TRANSPARENT (demo_construct 1).1).1
    = Some [-1; 100 * (1#2)]%Q ∧
  visible (update list_resume demo_TRANSPARENT (demo_construct 1).1).1
    = Some false.
Proof.
  destruct (update_on_exhausted_generator list_resume two_frames
              demo_TRANSPARENT demo_VisualObject__init__
              (demo_construct 1).1 (Suspended []) eq_refl eq_refl)
    as (Hupd & _ & _).
  rewrite Hupd. done.
Defined.

Lemma reset_restarts_the_stream_witness :
  ∃ s', reset list_resume two_frames demo_TRANSPARENT demo_s2
          = (s', Return ()) ∧
        visible s' = Some true ∧ img s' = Some [0; 100]%Q.
Proof.
  destruct (reset_restarts_the_stream list_resume two_frames
              demo_TRANSPARENT demo_VisualObject__init__
              (1#50) (2, 2)%Q (0, 0)%Q 100 demo_s0 demo_s2
              ([0; 100], [0])%Q)
    as (s' & Hreset & Hvis & _ & _ & Himg & _).
  - intros s1 s2 Hp. unfold two_frames. by rewrite Hp.
  - reflexivity.
  - reflexivity.
  - unfold demo_s2. apply reachable_update, reachable_update, reachable_start.
  - exists s'. by split_and!.
Defined.

(** *** The added properties on the demo stimuli *)

(** A stream whose only frame is brighter than [max_luminance], at the
    point where [__init__] calls [update]; and a stream without frames. *)
Definition too_bright_frames (self : VisualStimulus (list frame)) : list frame :=
  [([0; 101], [])%Q].

Definition demo_too_bright_self : VisualStimulus (list frame) :=
  before_update too_bright_frames demo_VisualObject__init__
    (1#50) (2, 2)%Q (0, 0)%Q 100.

Definition no_frames (self : VisualStimulus (list frame)) : list frame := [].

Lemma update_accepts_frame_pixelwise_witness :
  pixels_in_range demo_TRANSPARENT (max_luminance demo_s0)
    [-1; 100 * (1#2)]%Q.
Proof.
  apply (update_accepts_frame_pixelwise list_resume demo_TRANSPARENT demo_s0
           (Suspended [([-1; 100 * (1#2)], [1#2])%Q]) (Suspended [])
           [-1; 100 * (1#2)]%Q [1#2]%Q eq_refl eq_refl).
  vm_compute. reflexivity.
Defined.

Lemma update_keeps_rejected_frame_witness :
  (update list_resume demo_TRANSPARENT demo_too_bright_self).2
    = Raise AssertionError ∧
  img (update list_resume demo_TRANSPARENT demo_too_bright_self).1
    = Some [0; 101]%Q.
Proof.
  destruct (update_keeps_rejected_frame list_resume demo_TRANSPARENT
              demo_too_bright_self (Suspended [([0; 101], [])%Q])
              (Suspended []) ([0; 101], [])%Q eq_refl eq_refl)
    as (Hr & Hi & _).
  - done.
  - rewrite <- check_luminance_return. vm_compute. discriminate.
  - by split.
Defined.

Lemma constructed_stimulus_exposes_valid_frame_witness :
  ∃ im, img (demo_construct 1).1 = Some im ∧
        in_luminance_range demo_TRANSPARENT 100 im.
Proof.
  apply (constructed_stimulus_exposes_valid_frame list_resume two_frames
           demo_TRANSPARENT demo_VisualObject__init__ 1
           (1#50) (2, 2)%Q (0, 0)%Q 100 (demo_construct 1).1
           ([0; 100], [0])%Q).
  - reflexivity.
  - vm_compute. reflexivity.
Defined.

Lemma constructor_arguments_are_kept_witness :
  max_luminance demo_s2 = 100%Q ∧ frame_duration demo_s2 = (1#50)%Q.
Proof.
  destruct (constructor_arguments_are_kept list_resume two_frames
              demo_TRANSPARENT demo_VisualObject__init__
              (1#50) (2, 2)%Q (0, 0)%Q 100 demo_s0 demo_s2 (Return ()))
    as (Hfd & Hml & _).
  - reflexivity.
  - unfold demo_s2. apply reachable_update, reachable_update, reachable_start.
  - by split.
Defined.

Lemma constructor_on_empty_stream_witness :
  ∃ s, __init__ list_resume no_frames demo_TRANSPARENT
         demo_VisualObject__init__ (1#50) (2, 2)%Q (0, 0)%Q 100
       = (s, Return ()) ∧
       visible s = Some false ∧ img s = None.
Proof.
  destruct (constructor_on_empty_stream list_resume no_frames
              demo_TRANSPARENT demo_VisualObject__init__
              (1#50) (2, 2)%Q (0, 0)%Q 100 eq_refl)
    as (s & Hinit & Hvis & _ & _ & Himg & _).
  exists s. by split_and!.
Defined.

Lemma next_frame_repeats_last_frame_witness :
  ∃ s', next_frame list_resume demo_TRANSPARENT (demo_construct 1).1
          = (s', Return [[-1; 100 * (1#2)]%Q]) ∧
        visible s' = Some false.
Proof.
  destruct (next_frame_repeats_last_frame list_resume demo_TRANSPARENT
              (demo_construct 1).1 (Suspended []) [-1; 100 * (1#2)]%Q
              eq_refl eq_refl eq_refl)
    as (s' & Hnf & _ & _ & Hvis & _).
  exists s'. by split.
Defined.

Lemma reset_twice_is_reset_once_witness :
  reset list_resume two_frames demo_TRANSPARENT
    (reset list_resume two_frames demo_TRANSPARENT demo_s2).1
  = reset list_resume two_frames demo_TRANSPARENT demo_s2.
Proof.
  apply reset_twice_is_reset_once.
  intros s1 s2 Hp. unfold two_frames. by rewrite Hp.
Defined.

End Stimulus.

(** ** Analysis data structures
    ([mozaik/analysis/analysis_data_structures.py]) *)
Module Analysis.

(** Values of the attributes declared with [param.String] and
    [param.List]. *)
Inductive pval : Type :=
| P_str (s : string)
| P_list (l : list string).

#[global] Instance pval_eq_dec : EqDecision pval.
Proof. solve_decision. Defined.

(** The attributes [param] manages, by name: an instance starts from the
    defaults its class declares.  Keyword arguments [**params] are such a
    dictionary too. *)
Abbreviation attrs := (gmap string pval).

(** A call [f(k1=v1, ..., **params)]: Python raises [TypeError] when
    [params] gives one of the explicit keywords again. *)
Definition call_kw (explicit params : attrs) : result attrs :=
  if decide (dom explicit ##@{gset string} dom params)
  then Return (explicit ∪ params)
  else Raise TypeError.

(** [Parameterized.__init__(self, **params)] of the [param] library, which
    is not part of these sources: every keyword becomes the value of the
    attribute of that name.  The validation [param] runs on the values is
    not modelled. *)
Definition Parameterized__init__ (self params : attrs) : attrs :=
  params ∪ self.

(** The declarations in the class bodies. *)
Definition AnalysisDataStructure_class : attrs :=
  {[ "identifier" := P_str ""; "analysis_algorithm" := P_str "";
     "tags" := P_list [] ]}.
Definition TuningCurve_class : attrs :=
  <["sheet_name" := P_str ""]> AnalysisDataStructure_class.
Definition CyclicTuningCurve_class : attrs := TuningCurve_class.
Definition PerNeuronValue_class : attrs :=
  <["value_name" := P_str ""]>
    (<["sheet_name" := P_str ""]> AnalysisDataStructure_class).
Definition AnalysisDataStructure1D_class : attrs :=
  <["x_axis_name" := P_str ""]>
    (<["y_axis_name" := P_str ""]> AnalysisDataStructure_class).
Definition AnalogSignalList_class : attrs :=
  <["sheet_name" := P_str ""]> AnalysisDataStructure1D_class.
Definition ConductanceSignalList_class : attrs :=
  <["sheet_name" := P_str ""]> AnalysisDataStructure1D_class.

Definition AnalysisDataStructure__init__ (self params : attrs) : attrs :=
  Parameterized__init__ self params.

(** A parsed stimulus id; this file reads and assigns [parameters] only. *)
Record StimulusID : Type := {
  name : string;
  parameters : list string
}.

(** A signal as [ConductanceSignalList] reads it: [units],
    [sampling_rate.units] and the samples. *)
Record AnalogSignal : Type := {
  units : string;
  sampling_rate_units : string;
  samples : list Q
}.

(** The tuning-curve dictionary: key ↦ [(levels, xaxis)]. *)
Abbreviation tc_dict := (gmap string (list (list Q) * list Q)).

Record TuningCurve : Type := {
  tc_params : attrs;
  tc_values : list (list Q);
  tc_stimuli_ids : list string;
  tc_parameter_index : Z;
  tc_y_axis_name : string;
  tc_y_axis_units : string;
  tc_d : option tc_dict
}.

Record CyclicTuningCurve : Type := {
  ctc_base : TuningCurve;
  ctc_period : Q
}.

Record PerNeuronValue : Type := {
  pnv_params : attrs;
  pnv_value_units : string;
  pnv_period : option Q;
  pnv_values : list Q
}.

Record AnalysisDataStructure1D : Type := {
  ads1d_params : attrs;
  x_axis_units : string;
  y_axis_units : string
}.

Record AnalogSignalList : Type := {
  asl_base : AnalysisDataStructure1D;
  asl : list AnalogSignal;
  asl_indexes : list nat
}.

Record ConductanceSignalList : Type := {
  csl_base : AnalysisDataStructure1D;
  e_con : list AnalogSignal;
  i_con : list AnalogSignal;
  csl_indexes : list nat
}.

(** [l[i]] for a Python list: the position it refers to and the element
    there; [None] is [IndexError]. *)
Definition list_getitem {A} (l : list A) (i : Z) : option (nat * A) :=
  let pos := if decide (i < 0)%Z then (Z.of_nat (length l) + i)%Z else i in
  if decide (0 ≤ pos)%Z then (λ x, (Z.to_nat pos, x)) <$> l !! Z.to_nat pos
  else None.

Definition set_identifier (ident : string) (tc : TuningCurve) : TuningCurve :=
  {| tc_params := <["identifier" := P_str ident]> (tc_params tc);
     tc_values := tc_values tc; tc_stimuli_ids := tc_stimuli_ids tc;
     tc_parameter_index := tc_parameter_index tc;
     tc_y_axis_name := tc_y_axis_name tc;
     tc_y_axis_units := tc_y_axis_units tc; tc_d := tc_d tc |}.

Definition set_d (d : tc_dict) (tc : TuningCurve) : TuningCurve :=
  {| tc_params := tc_params tc;
     tc_values := tc_values tc; tc_stimuli_ids := tc_stimuli_ids tc;
     tc_parameter_index := tc_parameter_index tc;
     tc_y_axis_name := tc_y_axis_name tc;
     tc_y_axis_units := tc_y_axis_units tc; tc_d := Some d |}.

Definition TuningCurve__init__ (self : attrs) (values : list (list Q))
    (stimuli_ids : list string) (parameter_index : Z)
    (y_axis_name y_axis_units : string) (params : attrs)
    : result TuningCurve :=
  kw ← call_kw {[ "identifier" := P_str "TuningCurve" ]} params;
  Return {| tc_params := AnalysisDataStructure__init__ self kw;
            tc_values := values; tc_stimuli_ids := stimuli_ids;
            tc_parameter_index := parameter_index;
            tc_y_axis_name := y_axis_name; tc_y_axis_units := y_axis_units;
            tc_d := None |}.

(** [tags] is a parameter of its own here and is not passed on. *)
Definition PerNeuronValue__init__ (self : attrs) (values : list Q)
    (value_units : string) (tags : list string) (period : option Q)
    (params : attrs) : result PerNeuronValue :=
  kw ← call_kw {[ "identifier" := P_str "PerNeuronValue" ]} params;
  Return {| pnv_params := AnalysisDataStructure__init__ self kw;
            pnv_value_units := value_units; pnv_period := period;
            pnv_values := values |}.

Definition AnalysisDataStructure1D__init__ (self : attrs)
    (x_axis_units y_axis_units : string) (params : attrs)
    : AnalysisDataStructure1D :=
  {| ads1d_params := AnalysisDataStructure__init__ self params;
     x_axis_units := x_axis_units; y_axis_units := y_axis_units |}.

Definition AnalogSignalList__init__ (self : attrs) (asl : list AnalogSignal)
    (indexes : list nat) (x_axis_units y_axis_units : string)
    (params : attrs) : result AnalogSignalList :=
  kw ← call_kw {[ "identifier" := P_str "AnalogSignalList" ]} params;
  Return {| asl_base :=
              AnalysisDataStructure1D__init__ self x_axis_units y_axis_units kw;
            asl := asl; asl_indexes := indexes |}.

Definition ConductanceSignalList__init__ (self : attrs)
    (e_con i_con : list AnalogSignal) (indexes : list nat) (params : attrs)
    : result ConductanceSignalList :=
  match e_con, i_con with
  | e0 :: _, i0 :: _ =>
      if decide (units e0 = units i0) then
        kw ← call_kw {[ "x_axis_name" := P_str "time";
                        "y_axis_name" := P_str "conductance";
                        "identifier" := P_str "ConductanceSignalList" ]}
                     params;
        Return {| csl_base :=
                    AnalysisDataStructure1D__init__ self
                      (sampling_rate_units e0) (units e0) kw;
                  e_con := e_con; i_con := i_con; csl_indexes := indexes |}
      else Raise AssertionError
  | _, _ => Raise IndexError
  end.

Section StimulusIds.

(** From [mozaik.stimuli.stimulus_generator], which is not part of these
    sources: [parse_stimuls_id] and [str] of the object it returns; and
    Python's [float] on a parameter.  Each may raise. *)
Variable parse_stimuls_id : string → result StimulusID.
Variable str : StimulusID → string.
Variable float : string → result Q.

(** [float(parse_stimuls_id(s).parameters[parameter_index])], with the
    parsed id and the position the index refers to. *)
Definition stimulus_parameter (parameter_index : Z) (sid : string)
    : result (StimulusID * nat * Q) :=
  s ← parse_stimuls_id sid;
  match list_getitem (parameters s) parameter_index with
  | None => Raise IndexError
  | Some (i, p) => v ← float p; Return (s, i, v)
  end.

(** The first lines of the loop body of
    [to_dictonary_of_tc_parametrization]: the key [str(s)] after
    [s.parameters[parameter_index] = 'x'], and [val]. *)
Definition rekey (parameter_index : Z) (sid : string) : result (string * Q) :=
  '(s, i, val) ← stimulus_parameter parameter_index sid;
  Return (str {| name := name s; parameters := <[i := "x"]> (parameters s) |},
          val).

(** The first loop, from dictionary [d] on; the dictionary is returned
    also when an id makes the loop raise. *)
Fixpoint group_loop (parameter_index : Z) (pairs : list (list Q * string))
    (d : tc_dict) : tc_dict * result unit :=
  match pairs with
  | [] => (d, Return ())
  | (v, sid) :: rest =>
      match rekey parameter_index sid with
      | Raise e => (d, Raise e)
      | Return (key, val) =>
          match d !! key with
          | Some (a, b) =>
              group_loop parameter_index rest
                (<[key := (a ++ [v], b ++ [val])]> d)
          | None =>
              group_loop parameter_index rest (<[key := ([v], [val])]> d)
          end
      end
  end.

(** The method; the second loop turns every [levels] list into a numpy
    array with the same elements in the same order, which are lists
    here. *)
Definition to_dictonary_of_tc_parametrization (self : TuningCurve)
    : TuningCurve * result tc_dict :=
  let '(d, r) := group_loop (tc_parameter_index self)
                   (zip (tc_values self) (tc_stimuli_ids self)) ∅ in
  (set_d d self, r ≫= λ _, Return d).

(** The loop of [CyclicTuningCurve.__init__]. *)
Fixpoint check_period (period : Q) (parameter_index : Z)
    (stimuli_ids : list string) : result unit :=
  match stimuli_ids with
  | [] => Return ()
  | sid :: rest =>
      '(_, _, v) ← stimulus_parameter parameter_index sid;
      if negb (Qle_bool 0 v) || Qle_bool period v then Raise ValueError
      else check_period period parameter_index rest
  end.

Definition CyclicTuningCurve__init__ (self : attrs) (period : Q)
    (values : list (list Q)) (stimuli_ids : list string)
    (parameter_index : Z) (y_axis_name y_axis_units : string)
    (params : attrs) : result CyclicTuningCurve :=
  tc ← TuningCurve__init__ self values stimuli_ids parameter_index
         y_axis_name y_axis_units params;
  let tc := set_identifier "CyclicTuningCurve" tc in
  _ ← check_period period (tc_parameter_index tc) (tc_stimuli_ids tc);
  Return {| ctc_base := tc; ctc_period := period |}.




(** A pair [(v, s)] of the zip with its key and its float parameter:
    [(key, v, val)]. *)
Definition entry_of (parameter_index : Z) (p : list Q * string)
    : option (string * list Q * Q) :=
  match rekey parameter_index p.2 with
  | Return (k, x) => Some (k, p.1, x)
  | Raise _ => None
  end.

Definition entries (parameter_index : Z) (pairs : list (list Q * string))
    : list (string * list Q * Q) :=
  omap (entry_of parameter_index) pairs.

(** The entries with key [k], in their original order, and the two lists
    the specification takes from them. *)
Definition group (k : string) (es : list (string * list Q * Q))
    : list (string * list Q * Q) :=
  filter (λ e, e.1.1 = k) es.

Definition levels_of (es : list (string * list Q * Q)) : list (list Q) :=
  (λ e, e.1.2) <$> es.

Definition xaxis_of (es : list (string * list Q * Q)) : list Q :=
  (λ e, e.2) <$> es.

(** The dictionary holds, for every key, the group of that key. *)
Definition represents (d : tc_dict) (es : list (string * list Q * Q)) : Prop :=
  ∀ k, d !! k =
    if decide (group k es = []) then None
    else Some (levels_of (group k es), xaxis_of (group k es)).

(** All [(key, level, x)] triples a dictionary holds. *)
Definition flatten (d : tc_dict) : list (string * list Q * Q) :=
  map_to_list d ≫= λ kv, (λ vx, (kv.1, vx.1, vx.2)) <$> zip kv.2.1 kv.2.2.

(** *** Keyword arguments *)

Lemma identifier_fresh (ident : string) (params : attrs) :
  "identifier" ∉ dom params →
  dom ({[ "identifier" := P_str ident ]} : attrs) ##@{gset string} dom params.
Proof. intros Hid. rewrite dom_singleton_L. set_solver. Qed.

Lemma call_kw_identifier (ident : string) (params : attrs) :
  "identifier" ∉ dom params →
  call_kw {[ "identifier" := P_str ident ]} params =
    Return ({[ "identifier" := P_str ident ]} ∪ params).
Proof.
  intros Hid. unfold call_kw.
  case_decide as Hd; [done|]. destruct Hd. by apply identifier_fresh.
Qed.

Lemma call_kw_Return (explicit params kw : attrs) :
  call_kw explicit params = Return kw →
  dom explicit ##@{gset string} dom params ∧ kw = explicit ∪ params.
Proof. unfold call_kw. case_decide; [by intros [= <-] | done]. Qed.

(** *** The period check of [CyclicTuningCurve] *)








(** *** Grouping the tuning curve by key *)

Lemma represents_empty : represents ∅ [].
Proof. intros k. by rewrite lookup_empty. Qed.

Lemma represents_step (d : tc_dict) es k v x :
  represents d es →
  represents
    (match d !! k with
     | Some (a, b) => <[k := (a ++ [v], b ++ [x])]> d
     | None => <[k := ([v], [x])]> d
     end)
    (es ++ [(k, v, x)]).
Proof.
  intros Hd k'. unfold group. rewrite filter_app.
  destruct (decide (k' = k)) as [->|Hne].
  - rewrite (filter_cons_True (λ e, e.1.1 = k)) by done. rewrite filter_nil.
    rewrite decide_False by (by destruct (filter _ es)).
    unfold levels_of, xaxis_of. rewrite !fmap_app. simpl.
    specialize (Hd k). unfold group in Hd. rewrite Hd.
    case_decide as Hg.
    + rewrite lookup_insert_eq, Hg. done.
    + by rewrite lookup_insert_eq.
  - rewrite (filter_cons_False (λ e, e.1.1 = k')) by (simpl; congruence).
    rewrite filter_nil, app_nil_r. specialize (Hd k').
    destruct (d !! k) as [[a b]|]; by rewrite lookup_insert_ne.
Qed.

Lemma group_loop_represents idx pairs : ∀ (d : tc_dict) es,
  represents d es →
  Forall (λ p, is_Some (entry_of idx p)) pairs →
  ∃ d', group_loop idx pairs d = (d', Return ()) ∧
        represents d' (es ++ entries idx pairs).
Proof.
  induction pairs as [|[v sid] pairs IH]; intros d es Hd Hall.
  - exists d. split; [done|]. unfold entries. simpl. by rewrite app_nil_r.
  - apply Forall_cons in Hall as [[e He] Hall].
    unfold entries. simpl. rewrite He. unfold entry_of in He. simpl in He.
    destruct (rekey idx sid) as [[k x]|err]; [|done]. injection He as <-.
    destruct (IH _ (es ++ [(k, v, x)]) (represents_step d es k v x Hd) Hall)
      as (d' & Hrun & Hd').
    exists d'. rewrite <- app_assoc in Hd'. split; [|done].
    by destruct (d !! k) as [[a b]|].
Qed.

Lemma filter_none {A} (P : A → Prop) `{∀ x, Decision (P x)} (l : list A) :
  (∀ x, x ∈ l → ¬ P x) → filter P l = [].
Proof.
  intros Hno. destruct (filter P l) as [|x g] eqn:Hf; [done|].
  assert (x ∈ filter P l) as Hin by (rewrite Hf; left).
  apply list_elem_of_filter in Hin as [HP Hin]. by destruct (Hno x Hin).
Qed.

Lemma group_key k es e : e ∈ group k es → e.1.1 = k.
Proof. unfold group. rewrite list_elem_of_filter. tauto. Qed.

Lemma group_retag k (g : list (string * list Q * Q)) :
  Forall (λ e, e.1.1 = k) g →
  (λ vx : list Q * Q, (k, vx.1, vx.2)) <$> zip (levels_of g) (xaxis_of g) = g.
Proof.
  induction 1 as [|[[k' v] x] g Hk _ IH]; [done|].
  unfold levels_of, xaxis_of in *. simpl in Hk. subst k'.
  rewrite !fmap_cons. cbn. by f_equal.
Qed.

Lemma represents_flatten (d : tc_dict) : ∀ es, represents d es → flatten d ≡ₚ es.
Proof.
  induction d as [|k [a b] m Hk IH] using map_ind; intros es Hd.
  - unfold flatten. rewrite map_to_list_empty. simpl.
    destruct es as [|e es]; [done|]. specialize (Hd e.1.1).
    rewrite lookup_empty in Hd. unfold group in Hd.
    rewrite filter_cons_True in Hd by done. done.
  - unfold flatten. rewrite (map_to_list_insert m k (a, b) Hk). simpl.
    fold (flatten m).
    pose proof (Hd k) as Hdk. rewrite lookup_insert_eq in Hdk.
    case_decide as Hg; [done|]. injection Hdk as -> ->.
    rewrite group_retag
      by (apply Forall_forall; intros e He; by eapply group_key).
    rewrite (IH (filter (λ e, ¬ e.1.1 = k) es)).
    + apply (filter_app_complement (λ e, e.1.1 = k)).
    + intros k'. unfold group. rewrite list_filter_filter.
      destruct (decide (k' = k)) as [->|Hne].
      * rewrite Hk.
        rewrite decide_True; [done|].
        apply filter_none. intros e _ [? ?]. done.
      * specialize (Hd k'). rewrite lookup_insert_ne in Hd by done.
        rewrite Hd. unfold group.
        assert (Heq : filter (λ e : string * list Q * Q, e.1.1 = k' ∧ ¬ e.1.1 = k) es
                      = filter (λ e, e.1.1 = k') es).
        { apply list_filter_iff. intros e. split; [tauto|].
          intros He. split; [done | congruence]. }
        by rewrite Heq.
Qed.

Lemma entries_Forall2 idx pairs :
  Forall (λ p, is_Some (entry_of idx p)) pairs →
  Forall2 (λ p e, rekey idx p.2 = Return (e.1.1, e.2) ∧ e.1.2 = p.1)
    pairs (entries idx pairs).
Proof.
  induction 1 as [|[v sid] pairs [e He] _ IH]; [constructor|].
  unfold entries. simpl. rewrite He. constructor; [|exact IH].
  unfold entry_of in He. simpl in *.
  destruct (rekey idx sid) as [[k x]|err]; [|done]. by injection He as <-.
Qed.

Lemma group_nonempty k es : group k es ≠ [] ↔ ∃ e, e ∈ es ∧ e.1.1 = k.
Proof.
  unfold group. split.
  - intros Hne. destruct (filter _ es) as [|e g] eqn:Hf; [done|].
    assert (e ∈ filter (λ e, e.1.1 = k) es) as Hin by (rewrite Hf; left).
    apply list_elem_of_filter in Hin as [Hk Hin]. by exists e.
  - intros (e & He & Hk) Hnil.
    assert (e ∈ filter (λ e, e.1.1 = k) es) as Hin
      by by apply list_elem_of_filter.
    rewrite Hnil in Hin. inversion Hin.
Qed.

(** C3. When every zipped stimulus id has a float parameter at
    [parameter_index], [to_dictonary_of_tc_parametrization] returns a
    dictionary [d] such that: its keys are exactly the ids of the zipped
    pairs with that parameter replaced by ['x']; the value at a key is
    [(levels, xaxis)] with the tuning-curve values and the float parameters
    of the pairs that re-key to it, in their original order; and the groups
    together hold every pair exactly once. *)
Theorem tc_parametrization_groups_by_key (self : TuningCurve) :
  let idx := tc_parameter_index self in
  let pairs := zip (tc_values self) (tc_stimuli_ids self) in
  Forall (λ p, is_Some (entry_of idx p)) pairs →
  ∃ d : tc_dict,
    (to_dictonary_of_tc_parametrization self).2 = Return d ∧
    tc_d (to_dictonary_of_tc_parametrization self).1 = Some d ∧
    Forall2 (λ p e, rekey idx p.2 = Return (e.1.1, e.2) ∧ e.1.2 = p.1)
      pairs (entries idx pairs) ∧
    (∀ k, is_Some (d !! k) ↔
       ∃ v sid s i x,
         (v, sid) ∈ pairs ∧ stimulus_parameter idx sid = Return (s, i, x) ∧
         k = str {| name := name s;
                    parameters := <[i := "x"]> (parameters s) |}) ∧
    (∀ k levels xaxis,
       d !! k = Some (levels, xaxis) →
       levels = levels_of (group k (entries idx pairs)) ∧
       xaxis = xaxis_of (group k (entries idx pairs))) ∧
    flatten d ≡ₚ entries idx pairs.
Proof.
  intros idx pairs Hall.
  destruct (group_loop_represents idx pairs ∅ [] represents_empty Hall)
    as (d & Hrun & Hd).
  simpl in Hd. exists d.
  unfold to_dictonary_of_tc_parametrization. fold idx pairs. rewrite Hrun.
  pose proof (entries_Forall2 idx pairs Hall) as Hent.
  split_and!; try done.
  - intros k. rewrite Hd. split.
    + intros Hsome. case_decide as Hg; [by destruct Hsome|].
      apply group_nonempty in Hg as (e & He & Hk).
      apply list_elem_of_lookup in He as [n He].
      destruct (Forall2_lookup_r _ _ _ _ _ Hent He) as ([v sid] & Hp & Hr & Hv).
      simpl in *. unfold rekey in Hr.
      destruct (stimulus_parameter idx sid) as [[[s i] x]|err] eqn:Hsp; [|done].
      simpl in Hr. injection Hr as Hkey Hx.
      exists v, sid, s, i, x. split_and!; [|done|congruence].
      by eapply list_elem_of_lookup_2.
    + intros (v & sid & s & i & x & Hin & Hsp & ->).
      rewrite decide_False; [done|]. apply group_nonempty.
      apply list_elem_of_lookup in Hin as [n Hp].
      destruct (Forall2_lookup_l _ _ _ _ _ Hent Hp) as (e & He & Hr & Hv).
      exists e. split; [by eapply list_elem_of_lookup_2|].
      simpl in Hr. unfold rekey in Hr. rewrite Hsp in Hr. simpl in Hr.
      by injection Hr as <- _.
  - intros k levels xaxis. rewrite Hd. case_decide; [done|].
    by intros [= <- <-].
  - by apply represents_flatten.
Qed.

(** *** Further properties of the tuning-curve dictionary *)

(** The same curve with other data. *)
Definition with_data (values : list (list Q)) (stimuli_ids : list string)
    (tc : TuningCurve) : TuningCurve :=
  {| tc_params := tc_params tc;
     tc_values := values; tc_stimuli_ids := stimuli_ids;
     tc_parameter_index := tc_parameter_index tc;
     tc_y_axis_name := tc_y_axis_name tc;
     tc_y_axis_units := tc_y_axis_units tc; tc_d := tc_d tc |}.

(** Every group is a pair of lists of one length, and has a member. *)
Definition aligned (d : tc_dict) : Prop :=
  ∀ k levels xaxis, d !! k = Some (levels, xaxis) →
    length levels = length xaxis ∧ levels ≠ [].

Lemma group_loop_aligned idx pairs : ∀ (d : tc_dict),
  aligned d → aligned (group_loop idx pairs d).1.
Proof.
  induction pairs as [|[v sid] pairs IH]; intros d Hd; [done|]. simpl.
  destruct (rekey idx sid) as [[key val]|e]; [|done].
  destruct (d !! key) as [[a b]|] eqn:Hkey; apply IH.
  - intros k levels xaxis. destruct (decide (k = key)) as [->|Hne].
    + rewrite lookup_insert_eq. intros [= <- <-].
      destruct (Hd _ _ _ Hkey) as [Hlen _]. rewrite !length_app, Hlen.
      split; [done|]. by destruct a.
    + rewrite lookup_insert_ne by done. apply Hd.
  - intros k levels xaxis. destruct (decide (k = key)) as [->|Hne].
    + rewrite lookup_insert_eq. by intros [= <- <-].
    + rewrite lookup_insert_ne by done. apply Hd.
Qed.

Lemma to_dictonary_state (self : TuningCurve) :
  tc_d (to_dictonary_of_tc_parametrization self).1 =
    Some (group_loop (tc_parameter_index self)
            (zip (tc_values self) (tc_stimuli_ids self)) ∅).1 ∧
  (to_dictonary_of_tc_parametrization self).2 =
    (group_loop (tc_parameter_index self)
       (zip (tc_values self) (tc_stimuli_ids self)) ∅).2
    ≫= λ _, Return (group_loop (tc_parameter_index self)
                      (zip (tc_values self) (tc_stimuli_ids self)) ∅).1.
Proof.
  unfold to_dictonary_of_tc_parametrization.
  by destruct (group_loop _ _ _) as [d r].
Qed.

(** X15. In the dictionary the method leaves in [self.d] (the one it
    returns, or the part built when an id made it raise), every key has as
    many [levels] as [xaxis] entries, and at least one: [plot(xaxis, levels)]
    never meets lists of different lengths or an empty group. *)
Theorem tc_groups_are_aligned (self : TuningCurve) (d : tc_dict) k levels xaxis :
  tc_d (to_dictonary_of_tc_parametrization self).1 = Some d →
  d !! k = Some (levels, xaxis) →
  length levels = length xaxis ∧ levels ≠ [].
Proof.
  destruct (to_dictonary_state self) as [-> _]. intros [= <-].
  apply group_loop_aligned. intros k' a b. by rewrite lookup_empty.
Qed.

Lemma zip_app_same_length {A B} (l1 l2 : list A) (k1 k2 : list B) :
  length l1 = length k1 → zip (l1 ++ l2) (k1 ++ k2) = zip l1 k1 ++ zip l2 k2.
Proof.
  revert k1. induction l1 as [|x l1 IH]; intros [|y k1] Hlen; try done.
  simpl. f_equal. apply IH. by injection Hlen.
Qed.

Lemma zip_nil_r {A B} (l : list A) : zip l ([] : list B) = [].
Proof. by destruct l. Qed.

Lemma zip_surplus_l {A B} (l more : list A) (k : list B) :
  length l = length k → zip (l ++ more) k = zip l k.
Proof.
  intros Hlen. rewrite <- (app_nil_r k) at 1.
  rewrite zip_app_same_length by done. by rewrite zip_nil_r, app_nil_r.
Qed.

Lemma zip_surplus_r {A B} (l : list A) (k more : list B) :
  length l = length k → zip l (k ++ more) = zip l k.
Proof.
  intros Hlen. rewrite <- (app_nil_r l) at 1.
  rewrite zip_app_same_length by done. simpl. by rewrite app_nil_r.
Qed.

(** X16. The zip stops at the shorter list: values without a stimulus id
    and stimulus ids without a value are ignored, and such ids are not even
    parsed, so a malformed surplus id raises nothing. *)
Theorem tc_parametrization_ignores_surplus
    (tc : TuningCurve) (values : list (list Q)) (ids : list string)
    (more_values : list (list Q)) (more_ids : list string) :
  length values = length ids →
  (to_dictonary_of_tc_parametrization
     (with_data (values ++ more_values) ids tc)).2
  = (to_dictonary_of_tc_parametrization (with_data values ids tc)).2 ∧
  (to_dictonary_of_tc_parametrization
     (with_data values (ids ++ more_ids) tc)).2
  = (to_dictonary_of_tc_parametrization (with_data values ids tc)).2.
Proof.
  intros Hlen. split.
  - rewrite !(proj2 (to_dictonary_state _)). simpl.
    by rewrite zip_surplus_l.
  - rewrite !(proj2 (to_dictonary_state _)). simpl.
    by rewrite zip_surplus_r.
Qed.

Lemma group_loop_app idx l1 l2 (d : tc_dict) :
  group_loop idx (l1 ++ l2) d =
    match group_loop idx l1 d with
    | (d1, Return _) => group_loop idx l2 d1
    | (d1, Raise e) => (d1, Raise e)
    end.
Proof.
  revert d. induction l1 as [|[v sid] l1 IH]; intros d; [done|]. simpl.
  destruct (rekey idx sid) as [[key val]|e]; [|done].
  destruct (d !! key) as [[a b]|]; apply IH.
Qed.

(** X17. When a stimulus id cannot be re-keyed, the method raises the
    exception of that id, and [self.d] is left holding the dictionary of the
    pairs before it. *)
Theorem tc_parametrization_stops_at_bad_id
    (tc : TuningCurve) (vs1 : list (list Q)) (ids1 : list string)
    (v : list Q) (sid : string) (vs2 : list (list Q)) (ids2 : list string)
    (e : exn) :
  length vs1 = length ids1 →
  Forall (λ p, is_Some (entry_of (tc_parameter_index tc) p)) (zip vs1 ids1) →
  rekey (tc_parameter_index tc) sid = Raise e →
  ∃ d : tc_dict,
    (to_dictonary_of_tc_parametrization (with_data vs1 ids1 tc)).2 = Return d ∧
    (to_dictonary_of_tc_parametrization
       (with_data (vs1 ++ v :: vs2) (ids1 ++ sid :: ids2) tc)).2 = Raise e ∧
    tc_d (to_dictonary_of_tc_parametrization
            (with_data (vs1 ++ v :: vs2) (ids1 ++ sid :: ids2) tc)).1 = Some d.
Proof.
  intros Hlen Hgood Hbad.
  destruct (group_loop_represents _ _ ∅ [] represents_empty Hgood)
    as (d & Hrun & _).
  exists d. rewrite !(proj2 (to_dictonary_state _)).
  rewrite (proj1 (to_dictonary_state _)). simpl.
  rewrite zip_app_same_length by done. rewrite group_loop_app, Hrun.
  simpl. rewrite Hbad. done.
Qed.

(** *** Further properties of the period check *)





(** *** The parameter index *)




(** *** The dictionary of a cyclic tuning curve *)



End StimulusIds.

(** *** Identifiers and tags *)

Lemma init_lookup_explicit (self explicit params kw : attrs) k v :
  call_kw explicit params = Return kw →
  explicit !! k = Some v →
  AnalysisDataStructure__init__ self kw !! k = Some v.
Proof.
  intros [_ ->]%call_kw_Return Hk.
  unfold AnalysisDataStructure__init__, Parameterized__init__.
  by apply lookup_union_Some_l, lookup_union_Some_l.
Qed.

Lemma init_lookup_params (self explicit params kw : attrs) k v :
  call_kw explicit params = Return kw →
  params !! k = Some v →
  AnalysisDataStructure__init__ self kw !! k = Some v.
Proof.
  intros [Hdisj ->]%call_kw_Return Hk.
  unfold AnalysisDataStructure__init__, Parameterized__init__.
  apply lookup_union_Some_l. rewrite lookup_union_r; [done|].
  apply not_elem_of_dom. intros Hin. apply (Hdisj k Hin).
  apply elem_of_dom. eauto.
Qed.

Lemma init_lookup_default (self explicit params kw : attrs) k :
  call_kw explicit params = Return kw →
  explicit !! k = None → params !! k = None →
  AnalysisDataStructure__init__ self kw !! k = self !! k.
Proof.
  intros [_ ->]%call_kw_Return He Hp.
  unfold AnalysisDataStructure__init__, Parameterized__init__.
  rewrite lookup_union_r; [done|]. by rewrite lookup_union_r.
Qed.

(** Tags given among the keyword arguments reach the object: here for
    [TuningCurve], whose constructor passes [**params] on. *)
Lemma TuningCurve_keeps_tags self values ids idx yn yu (params : attrs) tags obj :
  params !! "tags" = Some (P_list tags) →
  TuningCurve__init__ self values ids idx yn yu params = Return obj →
  tc_params obj !! "tags" = Some (P_list tags).
Proof.
  intros Htags. unfold TuningCurve__init__.
  destruct (call_kw _ params) as [kw|e] eqn:Hkw; [|done].
  intros [= <-]. simpl. by eapply init_lookup_params.
Qed.

(** C5 (what the code does). [PerNeuronValue.__init__] takes [tags] as a
    parameter of its own and never hands it to the parent constructor:
    whatever list is supplied, the object is built and its [tags] is the
    default empty list; the argument has no influence on the result. *)
Theorem PerNeuronValue_drops_supplied_tags
    (values : list Q) (value_units : string) (tags : list string)
    (period : option Q) :
  ∃ obj,
    PerNeuronValue__init__ PerNeuronValue_class values value_units tags
      period ∅ = Return obj ∧
    pnv_params obj !! "tags" = Some (P_list []) ∧
    pnv_params obj !! "identifier" = Some (P_str "PerNeuronValue") ∧
    ∀ self params tags',
      PerNeuronValue__init__ self values value_units tags period params =
      PerNeuronValue__init__ self values value_units tags' period params.
Proof.
  unfold PerNeuronValue__init__.
  destruct (call_kw {["identifier" := P_str "PerNeuronValue"]} ∅)
    as [kw|e] eqn:Hkw.
  - eexists. split; [reflexivity|]. simpl. split_and!.
    + rewrite (init_lookup_default _ _ _ _ "tags" Hkw); done.
    + by eapply init_lookup_explicit.
    + done.
  - rewrite call_kw_identifier in Hkw; [done|].
    rewrite dom_empty_L. apply not_elem_of_empty.
Qed.

Example PerNeuronValue_tags_lost :
  (PerNeuronValue__init__ PerNeuronValue_class [1#2; 6#5] "Hz"
     ["contrast-high"] None ∅) ≫= (λ obj, Return (pnv_params obj !! "tags"))
  = Return (Some (P_list [])).
Proof. vm_compute. reflexivity. Qed.

Example TuningCurve_tags_kept :
  (TuningCurve__init__ TuningCurve_class [[1#2]] ["G(0,1)"] 0 "rate" "Hz"
     {[ "tags" := P_list ["contrast-high"] ]})
    ≫= (λ obj, Return (tc_params obj !! "tags"))
  = Return (Some (P_list ["contrast-high"])).
Proof. vm_compute. reflexivity. Qed.

(** C7. Every object a concrete constructor returns carries the identifier
    of its class: ['TuningCurve'], ['CyclicTuningCurve'] (assigned after
    the parent constructor has set ['TuningCurve']), ['PerNeuronValue'],
    ['AnalogSignalList'] and ['ConductanceSignalList']. *)
Theorem constructed_object_has_class_identifier :
  (∀ self values ids idx yn yu params obj,
     TuningCurve__init__ self values ids idx yn yu params = Return obj →
     tc_params obj !! "identifier" = Some (P_str "TuningCurve")) ∧
  (∀ parse float self period values ids idx yn yu params obj,
     CyclicTuningCurve__init__ parse float self period values ids idx yn yu
       params = Return obj →
     tc_params (ctc_base obj) !! "identifier"
       = Some (P_str "CyclicTuningCurve") ∧
     ∃ tc, TuningCurve__init__ self values ids idx yn yu params = Return tc ∧
           tc_params tc !! "identifier" = Some (P_str "TuningCurve")) ∧
  (∀ self values value_units tags period params obj,
     PerNeuronValue__init__ self values value_units tags period params
       = Return obj →
     pnv_params obj !! "identifier" = Some (P_str "PerNeuronValue")) ∧
  (∀ self asl indexes xu yu params obj,
     AnalogSignalList__init__ self asl indexes xu yu params = Return obj →
     ads1d_params (asl_base obj) !! "identifier"
       = Some (P_str "AnalogSignalList")) ∧
  (∀ self e_con i_con indexes params obj,
     ConductanceSignalList__init__ self e_con i_con indexes params
       = Return obj →
     ads1d_params (csl_base obj) !! "identifier"
       = Some (P_str "ConductanceSignalList")).
Proof.
  assert (Htc : ∀ self values ids idx yn yu params obj,
     TuningCurve__init__ self values ids idx yn yu params = Return obj →
     tc_params obj !! "identifier" = Some (P_str "TuningCurve")).
  { intros self values ids idx yn yu params obj. unfold TuningCurve__init__.
    destruct (call_kw _ params) as [kw|e] eqn:Hkw; [|done].
    intros [= <-]. simpl. eapply init_lookup_explicit; [done|].
    apply lookup_singleton_eq. }
  split_and!.
  - exact Htc.
  - intros parse float self period values ids idx yn yu params obj.
    unfold CyclicTuningCurve__init__.
    destruct (TuningCurve__init__ self values ids idx yn yu params)
      as [tc|e] eqn:Hinit; [|done].
    simpl. destruct (check_period _ _ _ _ _) as [[]|e]; [|done].
    intros [= <-]. simpl. split; [apply lookup_insert_eq|].
    exists tc. split; [done|]. by eapply Htc.
  - intros self values value_units tags period params obj.
    unfold PerNeuronValue__init__.
    destruct (call_kw _ params) as [kw|e] eqn:Hkw; [|done].
    intros [= <-]. simpl. eapply init_lookup_explicit; [done|].
    apply lookup_singleton_eq.
  - intros self asl indexes xu yu params obj.
    unfold AnalogSignalList__init__.
    destruct (call_kw _ params) as [kw|e] eqn:Hkw; [|done].
    intros [= <-]. simpl. eapply init_lookup_explicit; [done|].
    apply lookup_singleton_eq.
  - intros self e_con i_con indexes params obj.
    unfold ConductanceSignalList__init__.
    destruct e_con as [|e0 ?], i_con as [|i0 ?]; try done.
    case_decide; [|done].
    destruct (call_kw _ params) as [kw|e] eqn:Hkw; [|done].
    intros [= <-]. simpl. eapply init_lookup_explicit; [done|].
    by simplify_map_eq.
Qed.

(** *** Keyword arguments of the constructors *)

Lemma call_kw_repeated (explicit params : attrs) k :
  k ∈ dom explicit → k ∈ dom params →
  call_kw explicit params = Raise TypeError.
Proof.
  intros He Hp. unfold call_kw. case_decide as Hd; [|done].
  destruct (Hd k He Hp).
Qed.

Lemma identifier_in_singleton (ident : string) :
  "identifier" ∈ dom ({[ "identifier" := P_str ident ]} : attrs).
Proof. rewrite dom_singleton_L. by apply elem_of_singleton. Qed.

(** X21. The identifier cannot be chosen by the caller: a keyword argument
    [identifier] collides with the one each constructor passes itself, and
    the constructor raises [TypeError] (for [ConductanceSignalList], once
    the signals have passed its own check). *)
Theorem identifier_keyword_raises_TypeError (params : attrs) :
  "identifier" ∈ dom params →
  (∀ self values ids idx yn yu,
     TuningCurve__init__ self values ids idx yn yu params = Raise TypeError) ∧
  (∀ parse float self period values ids idx yn yu,
     CyclicTuningCurve__init__ parse float self period values ids idx yn yu
       params = Raise TypeError) ∧
  (∀ self values value_units tags period,
     PerNeuronValue__init__ self values value_units tags period params
       = Raise TypeError) ∧
  (∀ self signals indexes xu yu,
     AnalogSignalList__init__ self signals indexes xu yu params
       = Raise TypeError) ∧
  (∀ self e0 es i0 is_ indexes,
     units e0 = units i0 →
     ConductanceSignalList__init__ self (e0 :: es) (i0 :: is_) indexes params
       = Raise TypeError).
Proof.
  intros Hid.
  assert (Hkw : ∀ ident, call_kw {[ "identifier" := P_str ident ]} params
                         = Raise TypeError).
  { intros ident.
    apply (call_kw_repeated _ _ "identifier"); [|done].
    apply identifier_in_singleton. }
  split_and!.
  - intros. unfold TuningCurve__init__. by rewrite Hkw.
  - intros. unfold CyclicTuningCurve__init__, TuningCurve__init__.
    by rewrite Hkw.
  - intros. unfold PerNeuronValue__init__. by rewrite Hkw.
  - intros. unfold AnalogSignalList__init__. by rewrite Hkw.
  - intros self e0 es i0 is_ indexes Hu. unfold ConductanceSignalList__init__.
    rewrite decide_True by done.
    rewrite (call_kw_repeated _ _ "identifier"); [done | | done].
    rewrite !dom_insert_L, dom_singleton_L. set_solver.
Qed.

(** X22. What a constructor is given in [**params] becomes the attribute
    of that name, and an attribute it is not given keeps the default of the
    class: here for the attributes other than those the constructor sets
    itself. *)
Theorem keyword_arguments_become_attributes (self params : attrs) :
  (∀ values ids idx yn yu obj,
     TuningCurve__init__ self values ids idx yn yu params = Return obj →
     (∀ k v, params !! k = Some v → tc_params obj !! k = Some v) ∧
     (∀ k, params !! k = None → k ≠ "identifier" →
           tc_params obj !! k = self !! k)) ∧
  (∀ values value_units tags period obj,
     PerNeuronValue__init__ self values value_units tags period params
       = Return obj →
     (∀ k v, params !! k = Some v → pnv_params obj !! k = Some v) ∧
     (∀ k, params !! k = None → k ≠ "identifier" →
           pnv_params obj !! k = self !! k)) ∧
  (∀ signals indexes xu yu obj,
     AnalogSignalList__init__ self signals indexes xu yu params = Return obj →
     (∀ k v, params !! k = Some v →
             ads1d_params (asl_base obj) !! k = Some v) ∧
     (∀ k, params !! k = None → k ≠ "identifier" →
           ads1d_params (asl_base obj) !! k = self !! k)).
Proof.
  assert (Hsingle : ∀ ident k, k ≠ "identifier" →
            ({[ "identifier" := P_str ident ]} : attrs) !! k = None).
  { intros ident k Hk. by rewrite lookup_singleton_ne. }
  split_and!.
  - intros values ids idx yn yu obj. unfold TuningCurve__init__.
    destruct (call_kw _ params) as [kw|e] eqn:Hkw; [|done].
    intros [= <-]. simpl. split.
    + intros k v Hk. by eapply init_lookup_params.
    + intros k Hk Hne. eapply init_lookup_default; eauto.
  - intros values value_units tags period obj. unfold PerNeuronValue__init__.
    destruct (call_kw _ params) as [kw|e] eqn:Hkw; [|done].
    intros [= <-]. simpl. split.
    + intros k v Hk. by eapply init_lookup_params.
    + intros k Hk Hne. eapply init_lookup_default; eauto.
  - intros signals indexes xu yu obj. unfold AnalogSignalList__init__.
    destruct (call_kw _ params) as [kw|e] eqn:Hkw; [|done].
    intros [= <-]. simpl. split.
    + intros k v Hk. by eapply init_lookup_params.
    + intros k Hk Hne. eapply init_lookup_default; eauto.
Qed.

(** X23. [ConductanceSignalList] looks at the first signal of each list
    only: an empty list raises [IndexError], first signals with different
    units raise [AssertionError], and an object that is returned has the
    axis names ['time'] and ['conductance'], the sampling-rate units and the
    units of the first excitatory signal as axis units, and the lists as
    given. *)
Theorem ConductanceSignalList_checks_first_signals
    (self : attrs) (es is_ : list AnalogSignal) (indexes : list nat)
    (params : attrs) :
  (es = [] ∨ is_ = [] →
   ConductanceSignalList__init__ self es is_ indexes params
     = Raise IndexError) ∧
  (∀ e0 i0, head es = Some e0 → head is_ = Some i0 → units e0 ≠ units i0 →
   ConductanceSignalList__init__ self es is_ indexes params
     = Raise AssertionError) ∧
  (∀ obj,
   ConductanceSignalList__init__ self es is_ indexes params = Return obj →
   ∃ e0 i0,
     head es = Some e0 ∧ head is_ = Some i0 ∧ units e0 = units i0 ∧
     x_axis_units (csl_base obj) = sampling_rate_units e0 ∧
     y_axis_units (csl_base obj) = units e0 ∧
     ads1d_params (csl_base obj) !! "x_axis_name" = Some (P_str "time") ∧
     ads1d_params (csl_base obj) !! "y_axis_name"
       = Some (P_str "conductance") ∧
     e_con obj = es ∧ i_con obj = is_ ∧ csl_indexes obj = indexes).
Proof.
  unfold ConductanceSignalList__init__. split_and!.
  - intros [-> | ->]; [done | by destruct es].
  - intros e0 i0 He Hi Hu. destruct es as [|e es]; [done|].
    destruct is_ as [|i is_]; [done|]. simpl in He, Hi.
    injection He as ->. injection Hi as ->. by rewrite decide_False.
  - intros obj. destruct es as [|e0 es]; [done|].
    destruct is_ as [|i0 is_]; [done|]. case_decide as Hu; [|done].
    destruct (call_kw _ params) as [kw|e] eqn:Hkw; [|done].
    intros [= <-]. simpl. exists e0, i0. split_and!; try done.
    + eapply init_lookup_explicit; [done|]. by simplify_map_eq.
    + eapply init_lookup_explicit; [done|]. by simplify_map_eq.
Qed.

(** *** Stimulus ids to run the definitions on *)

(** A table standing in for the stimulus-id parser: ids ["G(p0,p1)"]. *)
Definition demo_parse (sid : string) : result StimulusID :=
  if decide (sid = "G(0,1)") then
    Return {| name := "G"; parameters := ["0"; "1"] |}
  else if decide (sid = "G(1,1)") then
    Return {| name := "G"; parameters := ["1"; "1"] |}
  else if decide (sid = "G(0,2)") then
    Return {| name := "G"; parameters := ["0"; "2"] |}
  else if decide (sid = "G(3,1)") then
    Return {| name := "G"; parameters := ["3"; "1"] |}
  else Raise ValueError.

Definition demo_str (s : StimulusID) : string :=
  name s +:+ "(" +:+ String.concat "," (parameters s) +:+ ")".

Definition demo_float (p : string) : result Q :=
  if decide (p = "0") then Return 0%Q
  else if decide (p = "1") then Return 1%Q
  else if decide (p = "2") then Return 2%Q
  else if decide (p = "3") then Return 3%Q
  else Raise ValueError.

Definition demo_curve : TuningCurve :=
  {| tc_params := TuningCurve_class;
     tc_values := [[1; 2]; [3; 4]; [5; 6]]%Q;
     tc_stimuli_ids := ["G(0,1)"; "G(1,1)"; "G(0,2)"];
     tc_parameter_index := 0;
     tc_y_axis_name := "rate"; tc_y_axis_units := "Hz"; tc_d := None |}.

Example demo_curve_dictionary :
  (to_dictonary_of_tc_parametrization demo_parse demo_str demo_float
     demo_curve).2
  = Return ({[ "G(x,1)" := ([[1; 2]; [3; 4]], [0; 1])%Q;
               "G(x,2)" := ([[5; 6]], [0])%Q ]} : tc_dict).
Proof. vm_compute. reflexivity. Qed.

(** A negative index counts from the end of the parameter list. *)
Example demo_rekey_negative_index :
  rekey demo_parse demo_str demo_float (-1) "G(3,1)" = Return ("G(3,x)", 1%Q).
Proof. vm_compute. reflexivity. Qed.

Example demo_cyclic_out_of_period :
  CyclicTuningCurve__init__ demo_parse demo_float CyclicTuningCurve_class 3
    [[1]; [2]]%Q ["G(0,1)"; "G(3,1)"] 0 "rate" "Hz" ∅
  = Raise ValueError.
Proof. vm_compute. reflexivity. Qed.

Lemma demo_curve_ids_parse :
  Forall (λ p, is_Some (entry_of demo_parse demo_str demo_float 0 p))
    (zip (tc_values demo_curve) (tc_stimuli_ids demo_curve)).
Proof. repeat constructor; by eexists. Defined.

Lemma tc_parametrization_groups_by_key_witness :
  ∃ d : tc_dict,
    (to_dictonary_of_tc_parametrization demo_parse demo_str demo_float
       demo_curve).2 = Return d ∧
    flatten d ≡ₚ [("G(x,1)", [1; 2], 0); ("G(x,1)", [3; 4], 1);
                  ("G(x,2)", [5; 6], 0)]%Q.
Proof.
  destruct (tc_parametrization_groups_by_key demo_parse demo_str demo_float
              demo_curve demo_curve_ids_parse)
    as (d & Hret & _ & _ & _ & _ & Hperm).
  exists d. split; [exact Hret | exact Hperm].
Defined.

Lemma constructed_object_has_class_identifier_witness :
  ∃ obj,
    CyclicTuningCurve__init__ demo_parse demo_float CyclicTuningCurve_class 2
      [[1]; [2]]%Q ["G(0,1)"; "G(1,1)"] 0 "rate" "Hz" ∅ = Return obj ∧
    tc_params (ctc_base obj) !! "identifier" = Some (P_str "CyclicTuningCurve").
Proof.
  eexists. split; [vm_compute; reflexivity|].
  eapply (proj1 (proj2 constructed_object_has_class_identifier)
            demo_parse demo_float CyclicTuningCurve_class 2%Q
            [[1]; [2]]%Q ["G(0,1)"; "G(1,1)"] 0%Z "rate" "Hz" ∅).
  vm_compute. reflexivity.
Defined.


(** *** The added properties on the demo data *)

Definition demo_dictionary : tc_dict :=
  {[ "G(x,1)" := ([[1; 2]; [3; 4]], [0; 1])%Q;
     "G(x,2)" := ([[5; 6]], [0])%Q ]}.

Definition demo_signal (u : string) : AnalogSignal :=
  {| units := u; sampling_rate_units := "Hz"; samples := [1#2; 1]%Q |}.

Lemma tc_groups_are_aligned_witness :
  length [[1; 2]; [3; 4]]%Q = length [0; 1]%Q ∧ [[1; 2]; [3; 4]]%Q ≠ [].
Proof.
  apply (tc_groups_are_aligned demo_parse demo_str demo_float demo_curve
           demo_dictionary "G(x,1)").
  - vm_compute. reflexivity.
  - vm_compute. reflexivity.
Defined.

Lemma tc_parametrization_ignores_surplus_witness :
  (to_dictonary_of_tc_parametrization demo_parse demo_str demo_float
     (with_data [[1; 2]]%Q ["G(0,1)"; "no such id"] demo_curve)).2
  = (to_dictonary_of_tc_parametrization demo_parse demo_str demo_float
       (with_data [[1; 2]]%Q ["G(0,1)"] demo_curve)).2.
Proof.
  apply (tc_parametrization_ignores_surplus demo_parse demo_str demo_float
           demo_curve [[1; 2]]%Q ["G(0,1)"] [[9]]%Q ["no such id"]).
  reflexivity.
Defined.

Lemma tc_parametrization_stops_at_bad_id_witness :
  ∃ d : tc_dict,
    (to_dictonary_of_tc_parametrization demo_parse demo_str demo_float
       (with_data [[1; 2]; [3]]%Q ["G(0,1)"; "no such id"] demo_curve)).2
    = Raise ValueError ∧
    tc_d (to_dictonary_of_tc_parametrization demo_parse demo_str demo_float
            (with_data [[1; 2]; [3]]%Q ["G(0,1)"; "no such id"] demo_curve)).1
    = Some d.
Proof.
  destruct (tc_parametrization_stops_at_bad_id demo_parse demo_str demo_float
              demo_curve [[1; 2]]%Q ["G(0,1)"] [3]%Q "no such id" [] []
              ValueError)
    as (d & _ & Hr & Hd).
  - reflexivity.
  - repeat constructor; by eexists.
  - vm_compute. reflexivity.
  - exists d. by split.
Defined.




Lemma identifier_keyword_raises_TypeError_witness :
  TuningCurve__init__ TuningCurve_class [[1]]%Q ["G(0,1)"] 0 "rate" "Hz"
    {[ "identifier" := P_str "mine" ]} = Raise TypeError.
Proof.
  apply (proj1 (identifier_keyword_raises_TypeError
                  {[ "identifier" := P_str "mine" ]}
                  (identifier_in_singleton "mine"))).
Defined.

Lemma keyword_arguments_become_attributes_witness :
  ∃ obj,
    TuningCurve__init__ TuningCurve_class [[1]]%Q ["G(0,1)"] 0 "rate" "Hz"
      {[ "sheet_name" := P_str "V1" ]} = Return obj ∧
    tc_params obj !! "sheet_name" = Some (P_str "V1") ∧
    tc_params obj !! "tags" = Some (P_list []).
Proof.
  destruct (TuningCurve__init__ TuningCurve_class [[1]]%Q ["G(0,1)"] 0 "rate"
              "Hz" {[ "sheet_name" := P_str "V1" ]}) as [obj|e] eqn:Hinit;
    [|vm_compute in Hinit; discriminate Hinit].
  exists obj. split; [reflexivity|].
  destruct (proj1 (keyword_arguments_become_attributes TuningCurve_class
                     {[ "sheet_name" := P_str "V1" ]})
              [[1]]%Q ["G(0,1)"] 0%Z "rate" "Hz" obj Hinit)
    as [Hgiven Hdefault].
  split.
  - apply Hgiven. reflexivity.
  - rewrite Hdefault; done.
Defined.

Lemma ConductanceSignalList_checks_first_signals_witness :
  ConductanceSignalList__init__ ConductanceSignalList_class
    [demo_signal "nS"] [demo_signal "uS"] [0%nat] ∅ = Raise AssertionError.
Proof.
  apply (proj1 (proj2 (ConductanceSignalList_checks_first_signals
                         ConductanceSignalList_class
                         [demo_signal "nS"] [demo_signal "uS"] [0%nat] ∅))
           (demo_signal "nS") (demo_signal "uS")); done.
Defined.


End Analysis.
